(** * XMLParser: a shallow embedding of [src/XMLParser.py]

    The Python class [XMLParser] extracts named parent elements of an XML
    document into nested dictionaries and then rewrites them with three
    transforms ([remove_keys], [flatten_nested_keys], [rename_keys]).

    Modelling choices.
    - A Python [str] is a [string].  The built-ins [str.lower],
      [str.capitalize] and [str.strip] are written out in [PyStr] for ASCII
      strings, where they are the functions of Python; characters above 127
      are left alone by [PyStr], which Python does not do.  So the general
      statements on the renamer take [str.lower] as a parameter
      ([rename_keys_with]), and a statement on the text of a leaf is made
      for ASCII text ([ascii_text]); [PyStr] itself is used on the ASCII
      strings of the examples.
    - A Python [dict] is an association list in insertion order, with the
      assignment [d[k] = v] as [dict_set] (overwrite in place, else append).
    - The parsed values are the ones the extractor can build, plus lists:
      a leaf string, a dict, or a list.
    - [xml.etree.ElementTree] is external: an element is a tag, an optional
      text and its ordered children. *)

From Stdlib Require Import List String Ascii Bool Arith Lia.
Import ListNotations.
Open Scope string_scope.
Open Scope list_scope.

Set Implicit Arguments.

(** ** Python strings *)

Module PyStr.

Definition newline : ascii := Ascii.ascii_of_nat 10.

(** [c.isspace()] on the ASCII range: TAB..CR, FS..US and the blank. *)
Definition isspace (c : ascii) : bool :=
  let n := Ascii.nat_of_ascii c in
  (((9 <=? n) && (n <=? 13)) || ((28 <=? n) && (n <=? 32)))%nat.

Definition lower_char (c : ascii) : ascii :=
  let n := Ascii.nat_of_ascii c in
  if ((65 <=? n) && (n <=? 90))%nat then Ascii.ascii_of_nat (n + 32) else c.

Definition upper_char (c : ascii) : ascii :=
  let n := Ascii.nat_of_ascii c in
  if ((97 <=? n) && (n <=? 122))%nat then Ascii.ascii_of_nat (n - 32) else c.

(** [s.lower()] *)
Fixpoint lower (s : string) : string :=
  match s with
  | EmptyString => EmptyString
  | String c r => String (lower_char c) (lower r)
  end.

(** [s.capitalize()]: first character upper case, the rest lower case. *)
Definition capitalize (s : string) : string :=
  match s with
  | EmptyString => EmptyString
  | String c r => String (upper_char c) (lower r)
  end.

Fixpoint lstrip (s : string) : string :=
  match s with
  | EmptyString => EmptyString
  | String c r => if isspace c then lstrip r else s
  end.

(** Drops the trailing white space: a character is kept when it is not
    white space or something is kept after it. *)
Fixpoint rstrip (s : string) : string :=
  match s with
  | EmptyString => EmptyString
  | String c r =>
      match rstrip r with
      | EmptyString => if isspace c then EmptyString else String c EmptyString
      | r' => String c r'
      end
  end.

(** [s.strip()] *)
Definition strip (s : string) : string := rstrip (lstrip s).

(** Every character of [s] satisfies [p]. *)
Fixpoint all_chars (p : ascii -> bool) (s : string) : bool :=
  match s with
  | EmptyString => true
  | String c r => p c && all_chars p r
  end.

End PyStr.

(** ** Python dictionaries, in insertion order *)

Section Dict.
Variable V : Type.

Definition dict := list (string * V).

Definition dict_keys (d : dict) : list string := map fst d.

(** [d.get(k)] *)
Fixpoint dict_get (d : dict) (k : string) : option V :=
  match d with
  | [] => None
  | (k', v) :: r => if String.eqb k' k then Some v else dict_get r k
  end.

(** [k in d] *)
Definition dict_mem (d : dict) (k : string) : bool :=
  match dict_get d k with Some _ => true | None => false end.

(** [d[k] = v]: an existing key keeps its position, a new one goes last. *)
Fixpoint dict_set (d : dict) (k : string) (v : V) : dict :=
  match d with
  | [] => [(k, v)]
  | (k', v') :: r =>
      if String.eqb k' k then (k', v) :: r else (k', v') :: dict_set r k v
  end.

(** [d.pop(k)]: the value and the dict that is left, [None] for a missing
    key (the callers test [k in d] first). *)
Fixpoint dict_pop (d : dict) (k : string) : option (V * dict) :=
  match d with
  | [] => None
  | (k', v) :: r =>
      if String.eqb k' k then Some (v, r)
      else match dict_pop r k with
           | Some (x, r') => Some (x, (k', v) :: r')
           | None => None
           end
  end.

(** The items are inserted one by one into [acc]. *)
Definition insert_all (items : list (string * V)) (acc : dict) : dict :=
  fold_left (fun a kv => dict_set a (fst kv) (snd kv)) items acc.

(** A dict comprehension: the insertions start from the empty dict. *)
Definition dict_of_items (items : list (string * V)) : dict :=
  insert_all items [].

End Dict.

(** ** Namespace stripper *)

(** [re.sub(r'\{.*?\}', '', tag)].  The scan goes left to right.  At an
    opening brace the lazy [.*?] runs to the first closing brace and may not
    cross a newline; when it succeeds the whole group is dropped and the scan
    resumes behind it, otherwise the brace is copied and the scan moves on by
    one character. *)
Fixpoint strip_namespace (tag : string) : string :=
  match tag with
  | EmptyString => EmptyString
  | String c rest =>
      let copied := String c (strip_namespace rest) in
      if Ascii.eqb c "{" then
        (fix lazy_close (t : string) : string :=
           match t with
           | EmptyString => copied
           | String d t' =>
               if Ascii.eqb d "}" then strip_namespace t'
               else if Ascii.eqb d PyStr.newline then copied
               else lazy_close t'
           end) rest
      else copied
  end.

(** The match of [\{.*?\}] tried behind an opening brace: what follows the
    group, when there is one. *)
Fixpoint brace_group_end (t : string) : option string :=
  match t with
  | EmptyString => None
  | String d t' =>
      if Ascii.eqb d "}" then Some t'
      else if Ascii.eqb d PyStr.newline then None
      else brace_group_end t'
  end.

(** ** Data model *)

(** A parsed value: leaf text, a dict, or a list.  The extractor builds the
    first two; the transforms also walk lists. *)
Unset Elimination Schemes.

Inductive value : Type :=
| VStr (s : string)
| VDict (d : list (string * value))
| VList (l : list value).

(** A node of the element tree of [xml.etree.ElementTree]: [elem.tag],
    [elem.text] ([None] when absent) and the children in document order. *)
Inductive element : Type :=
| Element (tag : string) (text : option string) (children : list element).

Set Elimination Schemes.

Definition etag (e : element) : string :=
  match e with Element t _ _ => t end.

Definition etext (e : element) : option string :=
  match e with Element _ x _ => x end.

Definition echildren (e : element) : list element :=
  match e with Element _ _ cs => cs end.

(** What a call leaves: its result, or the [TypeError] of an unhashable
    dict key. *)
Inductive outcome (A : Type) : Type :=
| Done (a : A)
| TypeError.

Arguments TypeError {A}.

Definition outcome_map {A B : Type} (f : A -> B) (o : outcome A) : outcome B :=
  match o with
  | Done a => Done (f a)
  | TypeError => TypeError
  end.

(** ** Tree extractor *)

(** [child.text.strip() if child.text else ""]: [None] and the empty string
    are both falsy. *)
Definition leaf_text (e : element) : string :=
  match etext e with
  | Some (String c r) => PyStr.strip (String c r)
  | _ => EmptyString
  end.

(** The local function [parse_element] of [parse_xml_to_dict]: [len(child)]
    is the number of children. *)
Fixpoint parse_element (e : element) : dict value :=
  match e with
  | Element _ _ children =>
      fold_left
        (fun data child =>
           dict_set data (strip_namespace (etag child))
             match echildren child with
             | [] => VStr (leaf_text child)
             | _ :: _ => VDict (parse_element child)
             end)
        children []
  end.

(** The value [parse_element] stores for one child. *)
Definition child_value (child : element) : value :=
  match echildren child with
  | [] => VStr (leaf_text child)
  | _ :: _ => VDict (parse_element child)
  end.

(** [root.iter()]: the element itself, then its descendants, depth first in
    document order. *)
Fixpoint iter (e : element) : list element :=
  match e with
  | Element _ _ children => e :: flat_map iter children
  end.

(** The inner loop of [parse_xml_to_dict] with its [break]: the first element
    of the traversal whose stripped tag is [parent]. *)
Definition first_match (root : element) (parent : string) : option element :=
  find (fun elem => String.eqb (strip_namespace (etag elem)) parent) (iter root).

(** [parse_xml_to_dict], on the tree [ET.fromstring(self.xml_string)]. *)
Definition parse_xml_to_dict (root : element) (parent_elements : list string)
  : dict value :=
  fold_left
    (fun extracted_data parent =>
       match first_match root parent with
       | Some elem => dict_set extracted_data parent (VDict (parse_element elem))
       | None => extracted_data
       end)
    parent_elements [].

(** [parent_elements or ["header", "values"]]: [None] and the empty list
    both give the default. *)
Definition init_parent_elements (parent_elements : option (list string))
  : list string :=
  match parent_elements with
  | Some (p :: r) => p :: r
  | _ => ["header"; "values"]
  end.

(** [XMLParser(xml_string, parent_elements).parsed_data] *)
Definition XMLParser_init (root : element) (parent_elements : option (list string))
  : dict value :=
  parse_xml_to_dict root (init_parent_elements parent_elements).

(** ** The transforms *)

(** [for parent in self.parsed_data: self.parsed_data[parent] = f(...)]:
    every entry is assigned in place, keys and order stay. *)
Definition update_parents (f : value -> value) (parsed_data : dict value)
  : dict value :=
  map (fun entry => (fst entry, f (snd entry))) parsed_data.

(** *** Key remover *)

(** [k in keys_to_remove] *)
Definition key_in (k : string) (keys : list string) : bool :=
  existsb (String.eqb k) keys.

Fixpoint recursive_remove (keys_to_remove : list string) (data : value) : value :=
  match data with
  | VDict d =>
      VDict (dict_of_items
               (flat_map
                  (fun kv =>
                     if key_in (fst kv) keys_to_remove then []
                     else [(fst kv, recursive_remove keys_to_remove (snd kv))])
                  d))
  | VList l => VList (map (recursive_remove keys_to_remove) l)
  | VStr _ => data
  end.

Definition remove_keys (keys_to_remove : list string) (parsed_data : dict value)
  : dict value :=
  update_parents (recursive_remove keys_to_remove) parsed_data.

(** *** Key renamer *)

(** [casing(key) if callable(casing) else key] *)
Definition apply_casing (casing : option (string -> string)) (key : string)
  : string :=
  match casing with
  | Some f => f key
  | None => key
  end.

(** [translation_map.get(k.lower(), k)] *)
Definition translate (translation_map : dict string) (k : string) : string :=
  match dict_get translation_map (PyStr.lower k) with
  | Some k' => k'
  | None => k
  end.

Fixpoint recursive_translate (translation_map : dict string)
  (casing : option (string -> string)) (data : value) : value :=
  match data with
  | VDict d =>
      VDict (dict_of_items
               (map
                  (fun kv =>
                     (apply_casing casing (translate translation_map (fst kv)),
                      recursive_translate translation_map casing (snd kv)))
                  d))
  | VList l => VList (map (recursive_translate translation_map casing) l)
  | VStr _ => data
  end.

Definition rename_keys (translation_map : dict string)
  (casing : option (string -> string)) (parsed_data : dict value) : dict value :=
  update_parents (recursive_translate translation_map casing) parsed_data.

(** The renamer again, with the built-in [str.lower] as a parameter.  Python
    lowers every cased character of Unicode; [PyStr.lower] is that function
    on ASCII strings only.  What is proved of [rename_keys_with] for every
    [str_lower] holds of the code on every key; [rename_keys] is
    [rename_keys_with PyStr.lower]. *)
Section RenamerAnyLower.
Variable str_lower : string -> string.

(** [translation_map.get(k.lower(), k)] *)
Definition translate_with (translation_map : dict string) (k : string) : string :=
  match dict_get translation_map (str_lower k) with
  | Some k' => k'
  | None => k
  end.

Fixpoint recursive_translate_with (translation_map : dict string)
  (casing : option (string -> string)) (data : value) : value :=
  match data with
  | VDict d =>
      VDict (dict_of_items
               (map
                  (fun kv =>
                     (apply_casing casing (translate_with translation_map (fst kv)),
                      recursive_translate_with translation_map casing (snd kv)))
                  d))
  | VList l => VList (map (recursive_translate_with translation_map casing) l)
  | VStr _ => data
  end.

Definition rename_keys_with (translation_map : dict string)
  (casing : option (string -> string)) (parsed_data : dict value) : dict value :=
  update_parents (recursive_translate_with translation_map casing) parsed_data.
End RenamerAnyLower.

(** *** Key flattener *)

(** [v.pop(nested_key)] rewrites the matched dict in place, and a promoted
    name that is itself a dict or a list cannot be a key: the assignment
    raises [TypeError: unhashable type].  Each function below therefore gives
    two things: the argument object as the call leaves it, and the outcome. *)
Section Flatten.
Variables nested_key value_key : string.

(** What is stored under the promoted key once the name has been popped off
    [v]: [v[value_key]] if [len(v) == 1 and value_key in v], else [v]. *)
Definition promoted (v : dict value) : value :=
  if (List.length v =? 1)%nat && dict_mem v value_key then
    match dict_get v value_key with
    | Some x => x
    | None => VDict v
    end
  else VDict v.

(** [isinstance(v, dict) and nested_key in v], then the pop. *)
Definition pop_name (v : value) : option (value * dict value) :=
  match v with
  | VDict dv => dict_pop dv nested_key
  | _ => None
  end.

Section Loops.
Variable rp : value -> value * outcome value.

(** The loop [for k, v in data.items()] filling [new_data]. *)
Fixpoint parse_items (items : list (string * value)) (new_data : dict value)
  : list (string * value) * outcome (dict value) :=
  match items with
  | [] => ([], Done new_data)
  | (k, v) :: rest =>
      match pop_name v with
      | Some (VStr new_key, dv) =>
          let (rest', o) :=
            parse_items rest (dict_set new_data new_key (promoted dv)) in
          ((k, VDict dv) :: rest', o)
      | Some (_, dv) => ((k, VDict dv) :: rest, TypeError)
      | None =>
          match rp v with
          | (v', Done y) =>
              let (rest', o) := parse_items rest (dict_set new_data k y) in
              ((k, v') :: rest', o)
          | (v', TypeError) => ((k, v') :: rest, TypeError)
          end
      end
  end.

(** [[recursive_parse(item) for item in data]] *)
Fixpoint parse_list (l : list value) : list value * outcome (list value) :=
  match l with
  | [] => ([], Done [])
  | x :: rest =>
      match rp x with
      | (x', Done y) =>
          let (rest', o) := parse_list rest in
          (x' :: rest', outcome_map (cons y) o)
      | (x', TypeError) => (x' :: rest, TypeError)
      end
  end.
End Loops.

Fixpoint recursive_parse (data : value) : value * outcome value :=
  match data with
  | VDict d =>
      let (d', o) := parse_items recursive_parse d [] in
      (VDict d', outcome_map VDict o)
  | VList l =>
      let (l', o) := parse_list recursive_parse l in
      (VList l', outcome_map VList o)
  | VStr _ => (data, Done data)
  end.

(** The loop over the parents: a parent is replaced by the result of its
    call; when a call raises, its parent keeps the object as the call left
    it and the later parents are not reached. *)
Fixpoint flatten_parents (parsed_data : dict value)
  : dict value * outcome unit :=
  match parsed_data with
  | [] => ([], Done tt)
  | (parent, v) :: rest =>
      match recursive_parse v with
      | (_, Done y) =>
          let (rest', o) := flatten_parents rest in
          ((parent, y) :: rest', o)
      | (v', TypeError) => ((parent, v') :: rest, TypeError)
      end
  end.
End Flatten.

(** [flatten_nested_keys(nested_key, value_key)]: the working structure
    afterwards, and whether the call returned. *)
Definition flatten_nested_keys (nested_key value_key : string)
  (parsed_data : dict value) : dict value * outcome unit :=
  flatten_parents nested_key value_key parsed_data.

(** [flatten_nested_keys()] with [nested_key="Name"], [value_key="Value"]. *)
Definition flatten_nested_keys_default (parsed_data : dict value)
  : dict value * outcome unit :=
  flatten_nested_keys "Name" "Value" parsed_data.

(** ** The example run of the module ([if __name__ == "__main__"]) *)

Module Sample.

(** A tag in the default namespace of the document. *)
Definition ns (local : string) : string :=
  ("{http://example.com}" ++ local)%string.

(** The white space between a start tag and its first child: a newline and
    [n] blanks. *)
Fixpoint blanks (n : nat) : string :=
  match n with
  | O => EmptyString
  | S m => String " " (blanks m)
  end.

Definition indent (n : nat) : option string :=
  Some (String PyStr.newline (blanks n)).

Definition leaf (local text : string) : element :=
  Element (ns local) (Some text) [].

Definition header : element :=
  Element (ns "header") (indent 12)
    [ leaf "ntitle" "Sample Title";
      leaf "date" "2025-03-13";
      Element (ns "meta") (indent 16)
        [ leaf "author" "John Doe"; leaf "version" "1.0" ] ].

Definition values : element :=
  Element (ns "values") (indent 12)
    [ leaf "price" "100";
      leaf "quantity" "5";
      Element (ns "details") (indent 16)
        [ leaf "Name" "Discount Details";
          leaf "currency" "USD";
          leaf "discount" "10%" ];
      Element (ns "extra") (indent 16)
        [ leaf "Name" "Special Offer"; leaf "Value" "50% Off" ] ].

(** [ET.fromstring(data)] for the XML text of the example. *)
Definition root : element :=
  Element (ns "root") (indent 8) [header; values].

Definition translation_map : dict string :=
  [("price", "cost"); ("quantity", "amount"); ("discount", "rebate")].

(** The calls of the example, in order; a raising call ends the run. *)
Definition run : dict value * outcome unit :=
  let parsed_data := XMLParser_init root (Some ["header"; "values"]) in
  let parsed_data := remove_keys ["meta"] parsed_data in
  match flatten_nested_keys_default parsed_data with
  | (parsed_data, Done _) =>
      (rename_keys translation_map (Some PyStr.capitalize) parsed_data, Done tt)
  | (parsed_data, TypeError) => (parsed_data, TypeError)
  end.

End Sample.

(** ** Notions used to state the properties *)

(** The leaf strings of a value, left to right. *)
Fixpoint leaves (v : value) : list string :=
  match v with
  | VStr s => [s]
  | VDict d => flat_map (fun kv => leaves (snd kv)) d
  | VList l => flat_map leaves l
  end.

(** The dict keys of a value at every depth. *)
Fixpoint all_keys (v : value) : list string :=
  match v with
  | VStr _ => []
  | VDict d => flat_map (fun kv => fst kv :: all_keys (snd kv)) d
  | VList l => flat_map all_keys l
  end.

Unset Elimination Schemes.

(** The invariant of a Python dict, at every depth: a key occurs once. *)
Inductive unique_keys : value -> Prop :=
| uk_str (s : string) : unique_keys (VStr s)
| uk_dict (d : list (string * value)) :
    NoDup (dict_keys d) ->
    Forall (fun kv => unique_keys (snd kv)) d ->
    unique_keys (VDict d)
| uk_list (l : list value) :
    Forall unique_keys l -> unique_keys (VList l).

(** No dict at any depth has a key of [keys]. *)
Inductive free_of (keys : list string) : value -> Prop :=
| fo_str (s : string) : free_of keys (VStr s)
| fo_dict (d : list (string * value)) :
    Forall (fun kv => key_in (fst kv) keys = false /\ free_of keys (snd kv)) d ->
    free_of keys (VDict d)
| fo_list (l : list value) :
    Forall (free_of keys) l -> free_of keys (VList l).

Set Elimination Schemes.

(** [after] has the parents of [before], in the same order, and each parent's
    value has no leaf string that the value before did not have. *)
Definition shape_kept (before after : dict value) : Prop :=
  Forall2
    (fun old new =>
       fst new = fst old /\ incl (leaves (snd new)) (leaves (snd old)))
    before after.

(** A call of [rp] on [v] brings no new leaf string, neither into the object
    it leaves behind nor into its result. *)
Definition keeps_leaves (rp : value -> value * outcome value) (v : value)
  : Prop :=
  incl (leaves (fst (rp v))) (leaves v)
  /\ forall y, snd (rp v) = Done y -> incl (leaves y) (leaves v).

(** How many entries of [d] sit under the key [k]. *)
Definition entries_under (V : Type) (d : dict V) (k : string) : nat :=
  List.length (filter (fun kv => String.eqb (fst kv) k) d).

(** A character other than the opening brace. *)
Definition not_open (c : ascii) : bool := negb (Ascii.eqb c "{").

(** A character the lazy [.*?] runs over before the closing brace: neither
    the closing brace nor a newline. *)
Definition inside_group (c : ascii) : bool :=
  negb (Ascii.eqb c "}") && negb (Ascii.eqb c PyStr.newline).

(** The namespace stripper as the specification words it: only a group at the
    very start of the tag is removed, up to its first closing brace. *)
Definition spec_strip_leading (tag : string) : string :=
  match tag with
  | String c rest =>
      if Ascii.eqb c "{" then
        match brace_group_end rest with
        | Some r => r
        | None => tag
        end
      else tag
  | EmptyString => tag
  end.


(** Structural induction on values, through the entries of a dict and the
    items of a list. *)
Section ValueInduction.
Variable P : value -> Prop.
Hypothesis on_str : forall s, P (VStr s).
Hypothesis on_dict :
  forall d, Forall (fun kv => P (snd kv)) d -> P (VDict d).
Hypothesis on_list : forall l, Forall P l -> P (VList l).

Fixpoint value_ind (v : value) : P v :=
  match v with
  | VStr s => on_str s
  | VDict d =>
      on_dict
        ((fix entries (d : list (string * value))
            : Forall (fun kv => P (snd kv)) d :=
            match d with
            | [] => Forall_nil _
            | kv :: r => Forall_cons kv (value_ind (snd kv)) (entries r)
            end) d)
  | VList l =>
      on_list
        ((fix items (l : list value) : Forall P l :=
            match l with
            | [] => Forall_nil _
            | x :: r => Forall_cons x (value_ind x) (items r)
            end) l)
  end.
End ValueInduction.

(** ** Pretty printer *)

(** The output is the list of the lines printed, one per call of [print]. *)

Definition tab : ascii := Ascii.ascii_of_nat 9.

(** ["\t" * indent] *)
Fixpoint tabs (indent : nat) : string :=
  match indent with
  | O => EmptyString
  | S n => String tab (tabs n)
  end.

(** [print_pretty_dict(data, indent)] for a [data] that is not [None]. *)
Fixpoint print_value (data : value) (indent : nat) : list string :=
  match data with
  | VDict d =>
      flat_map
        (fun kv =>
           match snd kv with
           | VStr s => [(tabs indent ++ "- " ++ fst kv ++ ": " ++ s)%string]
           | VDict _ | VList _ =>
               (tabs indent ++ "- " ++ fst kv ++ ":")%string
               :: print_value (snd kv) (S indent)
           end)
        d
  | VList l => flat_map (fun item => print_value item indent) l
  | VStr s => [(tabs indent ++ "- " ++ s)%string]
  end.

(** [print_pretty_dict(data=None, indent=0)]: with [data] absent, a header
    line per parent and its content at the given [indent]. *)
Definition print_pretty_dict (parsed_data : dict value) (data : option value)
  (indent : nat) : list string :=
  match data with
  | None =>
      flat_map
        (fun entry =>
           (PyStr.capitalize (fst entry) ++ ":")%string
           :: print_value (snd entry) indent)
        parsed_data
  | Some v => print_value v indent
  end.

(** ** Further notions *)

Unset Elimination Schemes.

(** A value without lists: strings and dicts only. *)
Inductive list_free : value -> Prop :=
| lf_str (s : string) : list_free (VStr s)
| lf_dict (d : list (string * value)) :
    Forall (fun kv => list_free (snd kv)) d -> list_free (VDict d).

(** Wherever [nested_key] is a key of a dict, at any depth, its value is a
    string. *)
Inductive string_names (nested_key : string) : value -> Prop :=
| sn_str (s : string) : string_names nested_key (VStr s)
| sn_dict (d : list (string * value)) :
    (forall name, dict_get d nested_key = Some name -> exists s, name = VStr s) ->
    Forall (fun kv => string_names nested_key (snd kv)) d ->
    string_names nested_key (VDict d)
| sn_list (l : list value) :
    Forall (string_names nested_key) l -> string_names nested_key (VList l).

Set Elimination Schemes.

(** The key under which the loop of the flattener stores an entry: the
    promoted name for a matched entry, the key of the entry otherwise; none
    when the name cannot be a key. *)
Definition produced_key (nested_key : string) (kv : string * value)
  : option string :=
  match pop_name nested_key (snd kv) with
  | Some (VStr new_key, _) => Some new_key
  | Some (_, _) => None
  | None => Some (fst kv)
  end.



(** The left-to-right scan of a global substitution of [\{.*?\}] by the
    empty string, as equations on a function [f]: a character other than an
    opening brace is copied; an opening brace that reaches a closing brace
    over characters [u] without a newline is dropped with [u] and the closing
    brace; an opening brace that meets the end of the string or a newline
    first is copied; in every case the scan goes on in what follows. *)
Definition brace_group_scan (f : string -> string) : Prop :=
  f EmptyString = EmptyString
  /\ (forall c rest,
         not_open c = true -> f (String c rest) = String c (f rest))
  /\ (forall u rest,
         PyStr.all_chars inside_group u = true ->
         f (String "{" (u ++ String "}" rest)%string) = f rest)
  /\ (forall u,
         PyStr.all_chars inside_group u = true ->
         f (String "{" u) = String "{" (f u))
  /\ (forall u w,
         PyStr.all_chars inside_group u = true ->
         f (String "{" (u ++ String PyStr.newline w)%string)
         = String "{" (f (u ++ String PyStr.newline w)%string)).

(** The tag has no brace group left to remove: behind each of its opening
    braces a newline or the end comes before any closing brace. *)
Fixpoint settled (tag : string) : bool :=
  match tag with
  | EmptyString => true
  | String c rest =>
      (if Ascii.eqb c "{" then
         match brace_group_end rest with Some _ => false | None => true end
       else true)
      && settled rest
  end.

(** Structural induction on elements, through the children. *)
Section ElementInduction.
Variable P : element -> Prop.
Hypothesis on_element :
  forall tag text children, Forall P children -> P (Element tag text children).

Fixpoint element_ind (e : element) : P e :=
  match e with
  | Element tag text children =>
      on_element tag text
        ((fix each (cs : list element) : Forall P cs :=
            match cs with
            | [] => Forall_nil _
            | c :: r => Forall_cons c (element_ind c) (each r)
            end) children)
  end.
End ElementInduction.

(** * Properties *)

Unset Implicit Arguments.

(** ** Dictionaries *)

Section DictFacts.
Variable V : Type.
Implicit Types (d acc : dict V) (items : list (string * V)).
Implicit Types (k : string) (v : V).

Lemma dict_get_set_same d k v : dict_get (dict_set d k v) k = Some v.
Proof.
  induction d as [|[k' v'] r IH]; simpl.
  - now rewrite String.eqb_refl.
  - destruct (String.eqb k' k) eqn:E; simpl; rewrite E; auto.
Qed.

Lemma dict_get_set_other d k k' v :
  k <> k' -> dict_get (dict_set d k v) k' = dict_get d k'.
Proof.
  intros Hne. induction d as [|[k0 v0] r IH]; simpl.
  - destruct (String.eqb_spec k k'); congruence.
  - destruct (String.eqb_spec k0 k) as [->|]; simpl.
    + destruct (String.eqb_spec k k'); congruence.
    + now rewrite IH.
Qed.

Lemma dict_get_In d k v : dict_get d k = Some v -> In (k, v) d.
Proof.
  induction d as [|[k' v'] r IH]; simpl; [discriminate|].
  destruct (String.eqb_spec k' k) as [->|]; intros H.
  - injection H as ->. now left.
  - right. auto.
Qed.


Lemma dict_set_fresh d k v :
  ~ In k (dict_keys d) -> dict_set d k v = d ++ [(k, v)].
Proof.
  induction d as [|[k' v'] r IH]; simpl; intros H; [reflexivity|].
  destruct (String.eqb_spec k' k) as [->|Hne].
  - exfalso. apply H. now left.
  - rewrite IH; tauto.
Qed.

Lemma dict_set_In d k v kv :
  In kv (dict_set d k v) -> kv = (k, v) \/ In kv d.
Proof.
  induction d as [|[k' v'] r IH]; simpl.
  - intros [<-|[]]. now left.
  - destruct (String.eqb_spec k' k) as [->|Hne]; simpl.
    + intros [<-|H]; auto.
    + intros [<-|H]; auto. destruct (IH H); auto.
Qed.

Lemma dict_set_keys d k v k' :
  In k' (dict_keys (dict_set d k v)) <-> k' = k \/ In k' (dict_keys d).
Proof.
  induction d as [|[k0 v0] r IH]; simpl.
  - intuition.
  - destruct (String.eqb_spec k0 k) as [->|Hne]; simpl.
    + intuition.
    + rewrite IH. intuition.
Qed.

Lemma dict_set_NoDup d k v :
  NoDup (dict_keys d) -> NoDup (dict_keys (dict_set d k v)).
Proof.
  induction d as [|[k0 v0] r IH]; simpl; intros H.
  - constructor; [intros [] | constructor].
  - inversion H as [|? ? Hnot Hr]; subst.
    destruct (String.eqb_spec k0 k) as [->|Hne]; simpl.
    + now constructor.
    + constructor; [|auto].
      rewrite dict_set_keys. intros [->|Hin]; auto.
Qed.

Lemma insert_all_NoDup items acc :
  NoDup (dict_keys acc) -> NoDup (dict_keys (insert_all items acc)).
Proof.
  revert acc. induction items as [|[k v] r IH]; simpl; intros acc H; [exact H|].
  apply IH. now apply dict_set_NoDup.
Qed.

Lemma insert_all_In items acc kv :
  In kv (insert_all items acc) -> In kv acc \/ In kv items.
Proof.
  revert acc. induction items as [|[k v] r IH]; simpl; intros acc H; [auto|].
  destruct (IH _ H) as [H1|H1]; [|auto].
  destruct (dict_set_In _ _ _ _ H1) as [->|]; auto.
Qed.


Lemma insert_all_fresh items acc :
  NoDup (dict_keys (acc ++ items)) -> insert_all items acc = acc ++ items.
Proof.
  revert acc. induction items as [|[k v] r IH]; simpl; intros acc H.
  - now rewrite app_nil_r.
  - assert (Hk : ~ In k (dict_keys acc)).
    { unfold dict_keys in *. rewrite map_app in H. simpl in H.
      apply NoDup_remove_2 in H. intros Hin. apply H.
      apply in_or_app. now left. }
    rewrite dict_set_fresh by exact Hk.
    rewrite IH; rewrite <- app_assoc; [reflexivity | exact H].
Qed.

Lemma dict_of_items_NoDup items : NoDup (dict_keys (dict_of_items items)).
Proof. apply (insert_all_NoDup items []). constructor. Qed.

Lemma dict_of_items_In items kv : In kv (dict_of_items items) -> In kv items.
Proof.
  intros H. destruct (insert_all_In items [] kv H) as [[]|]; assumption.
Qed.


Lemma dict_of_items_unique items :
  NoDup (dict_keys items) -> dict_of_items items = items.
Proof. intros H. apply (insert_all_fresh items []). exact H. Qed.

(** The last insertion under a key is the one that stays. *)
Lemma insert_all_last pre k v post acc :
  ~ In k (dict_keys post) ->
  dict_get (insert_all (pre ++ (k, v) :: post) acc) k = Some v.
Proof.
  intros Hpost. unfold insert_all. rewrite fold_left_app. simpl.
  generalize (fold_left (fun a kv => dict_set a (fst kv) (snd kv)) pre acc).
  intros d.
  assert (H : dict_get (dict_set d k v) k = Some v) by apply dict_get_set_same.
  revert H. generalize (dict_set d k v). clear d.
  induction post as [|[k' v'] r IH]; simpl; intros d H; [exact H|].
  apply IH.
  - intros Hin. apply Hpost. now right.
  - rewrite dict_get_set_other; [exact H|].
    intros ->. apply Hpost. now left.
Qed.


Lemma entries_under_unique d k :
  NoDup (dict_keys d) -> In k (dict_keys d) -> entries_under d k = 1.
Proof.
  unfold entries_under.
  induction d as [|[k' v'] r IH]; simpl; intros Hnd Hin; [contradiction|].
  inversion Hnd as [|? ? Hnot Hr]; subst.
  destruct (String.eqb_spec k' k) as [->|Hne]; simpl.
  - f_equal. clear IH Hin Hr Hnd.
    induction r as [|[k1 v1] r IH]; simpl; [reflexivity|].
    destruct (String.eqb_spec k1 k) as [->|].
    + exfalso. apply Hnot. now left.
    + apply IH. intros H. apply Hnot. now right.
  - apply IH; [exact Hr|]. destruct Hin; congruence.
Qed.

End DictFacts.

(** ** Namespace stripper *)

(** One step of the scan, with the attempt at an opening brace named. *)
Lemma strip_namespace_step (c : ascii) (rest : string) :
  strip_namespace (String c rest) =
  if Ascii.eqb c "{" then
    match brace_group_end rest with
    | Some r => strip_namespace r
    | None => String c (strip_namespace rest)
    end
  else String c (strip_namespace rest).
Proof.
  simpl. destruct (Ascii.eqb c "{"); [|reflexivity].
  generalize (String c (strip_namespace rest)). intros copied.
  induction rest as [|d t IH]; simpl; [reflexivity|].
  destruct (Ascii.eqb d "}"); [reflexivity|].
  destruct (Ascii.eqb d PyStr.newline); [reflexivity|].
  exact IH.
Qed.

Lemma strip_namespace_no_open (s : string) :
  PyStr.all_chars not_open s = true -> strip_namespace s = s.
Proof.
  induction s as [|c r IH]; [reflexivity|].
  cbn [PyStr.all_chars]. intros H. apply andb_prop in H as [Hc Hr].
  rewrite strip_namespace_step. unfold not_open in Hc.
  destruct (Ascii.eqb c "{"); [discriminate|].
  now rewrite IH.
Qed.

Lemma brace_group_end_found (u rest : string) :
  PyStr.all_chars inside_group u = true ->
  brace_group_end (u ++ String "}" rest)%string = Some rest.
Proof.
  induction u as [|c r IH]; [reflexivity|].
  cbn [PyStr.all_chars append brace_group_end]. intros H.
  apply andb_prop in H as [Hc Hr]. unfold inside_group in Hc.
  apply andb_prop in Hc as [H1 H2].
  destruct (Ascii.eqb c "}"); [discriminate|].
  destruct (Ascii.eqb c PyStr.newline); [discriminate|].
  auto.
Qed.

Lemma strip_namespace_prefix (pre s : string) :
  PyStr.all_chars not_open pre = true ->
  strip_namespace (pre ++ s)%string = (pre ++ strip_namespace s)%string.
Proof.
  induction pre as [|c r IH]; [reflexivity|].
  cbn [PyStr.all_chars append]. intros H. apply andb_prop in H as [Hc Hr].
  rewrite strip_namespace_step. unfold not_open in Hc.
  destruct (Ascii.eqb c "{"); [discriminate|].
  now rewrite IH.
Qed.

(** C2, as the claim has it, fails: the tag [{a}{b}c] (the namespace URI
    [a}{b], the local name [c]) has the leading group [{a}], whose removal
    leaves [{b}c]; the code returns [c]. *)
Lemma strip_namespace_not_only_leading :
  spec_strip_leading "{a}{b}c" = "{b}c"
  /\ strip_namespace "{a}{b}c" = "c"
  /\ strip_namespace "{a}{b}c" <> spec_strip_leading "{a}{b}c".
Proof. repeat split. discriminate. Qed.

(** ** Tree extractor *)

Lemma fold_left_map_items {A V : Type} (g : A -> string * V)
  (l : list A) (acc : dict V) :
  fold_left (fun a x => dict_set a (fst (g x)) (snd (g x))) l acc
  = insert_all (map g l) acc.
Proof.
  revert acc. induction l as [|x r IH]; intros acc; [reflexivity|].
  simpl. apply IH.
Qed.

(** [parse_element] inserts, child after child, the stripped tag with the
    value of the child. *)
Lemma parse_element_children (e : element) :
  parse_element e
  = insert_all
      (map (fun c => (strip_namespace (etag c), child_value c)) (echildren e)) [].
Proof.
  destruct e as [t x cs]. simpl.
  exact (fold_left_map_items
           (fun c => (strip_namespace (etag c), child_value c)) cs []).
Qed.




(** The entry of a requested parent after the loop over the parents. *)
Lemma extracted_entry (root : element) (parents : list string)
  (acc : dict value) (p : string) :
  dict_get
    (fold_left
       (fun extracted_data parent =>
          match first_match root parent with
          | Some elem => dict_set extracted_data parent (VDict (parse_element elem))
          | None => extracted_data
          end) parents acc) p
  = if existsb (String.eqb p) parents then
      match first_match root p with
      | Some elem => Some (VDict (parse_element elem))
      | None => dict_get acc p
      end
    else dict_get acc p.
Proof.
  revert acc. induction parents as [|q r IH]; intros acc; [reflexivity|].
  cbn [fold_left existsb]. rewrite IH.
  destruct (String.eqb_spec p q) as [<-|Hne]; cbn [orb].
  - destruct (first_match root p) as [elem|].
    + rewrite dict_get_set_same. now destruct (existsb (String.eqb p) r).
    + now destruct (existsb (String.eqb p) r).
  - assert (Hacc : dict_get
                     match first_match root q with
                     | Some elem => dict_set acc q (VDict (parse_element elem))
                     | None => acc
                     end p = dict_get acc p).
    { destruct (first_match root q); [|reflexivity].
      apply dict_get_set_other. congruence. }
    now rewrite Hacc.
Qed.

Lemma requested_existsb (p : string) (parents : list string) :
  In p parents -> existsb (String.eqb p) parents = true.
Proof.
  intros H. apply existsb_exists. exists p. split; [exact H|].
  apply String.eqb_refl.
Qed.

Lemma tags_of_later_siblings (t : string) (post : list element) :
  Forall (fun x => strip_namespace (etag x) <> t) post ->
  ~ In t
      (dict_keys (map (fun c => (strip_namespace (etag c), child_value c)) post)).
Proof.
  intros H. unfold dict_keys. rewrite map_map. simpl.
  rewrite in_map_iff. intros (x & Hx & Hin).
  rewrite Forall_forall in H. exact (H x Hin Hx).
Qed.





(** C6.  When [c] is the last child of [e] with its stripped tag (no later
    sibling has it), the dict built from [e] holds under that tag the value
    of [c], whatever earlier siblings with the same tag held; the tag has
    exactly one entry, and that value is a string or a dict, never a list. *)
Theorem parse_element_last_sibling_wins (e c : element) (pre post : list element)
  (Hchildren : echildren e = pre ++ c :: post)
  (Hlast : Forall (fun x => strip_namespace (etag x) <> strip_namespace (etag c))
             post) :
  dict_get (parse_element e) (strip_namespace (etag c)) = Some (child_value c)
  /\ entries_under (parse_element e) (strip_namespace (etag c)) = 1
  /\ (forall l, child_value c <> VList l).
Proof.
  assert (Hget : dict_get (parse_element e) (strip_namespace (etag c))
                 = Some (child_value c)).
  { rewrite parse_element_children, Hchildren, map_app. cbn [map].
    apply insert_all_last. now apply tags_of_later_siblings. }
  split; [exact Hget | split].
  - apply entries_under_unique.
    + rewrite parse_element_children. apply dict_of_items_NoDup.
    + apply dict_get_In in Hget.
      unfold dict_keys. apply in_map_iff.
      now exists (strip_namespace (etag c), child_value c).
  - intros l. unfold child_value. destruct (echildren c); discriminate.
Qed.

Lemma parse_element_last_sibling_wins_witness :
  dict_get
    (parse_element
       (Element "order" None
          [ Element "{urn:a}item" (Some " first ") [];
            Element "{urn:b}item" (Some "second") [];
            Element "note" (Some "n") [] ]))
    "item" = Some (VStr "second").
Proof.
  refine (proj1 (parse_element_last_sibling_wins
                   (Element "order" None
                      [ Element "{urn:a}item" (Some " first ") [];
                        Element "{urn:b}item" (Some "second") [];
                        Element "note" (Some "n") [] ])
                   (Element "{urn:b}item" (Some "second") [])
                   [ Element "{urn:a}item" (Some " first ") [] ]
                   [ Element "note" (Some "n") [] ] _ _)).
  - reflexivity.
  - repeat constructor. discriminate.
Defined.

(** ** Key remover *)

Lemma update_parents_twice (f g : value -> value) (parsed_data : dict value) :
  update_parents f (update_parents g parsed_data)
  = update_parents (fun v => f (g v)) parsed_data.
Proof. unfold update_parents. rewrite map_map. reflexivity. Qed.

Lemma update_parents_ext (f g : value -> value) (parsed_data : dict value) :
  (forall v, f v = g v) ->
  update_parents f parsed_data = update_parents g parsed_data.
Proof.
  intros H. unfold update_parents. apply map_ext. intros [k v]. simpl.
  now rewrite H.
Qed.

(** The entries a dict keeps, before they are inserted. *)
Lemma kept_entries (keys : list string) (d : list (string * value))
  (kv : string * value) :
  In kv
    (flat_map
       (fun kv =>
          if key_in (fst kv) keys then []
          else [(fst kv, recursive_remove keys (snd kv))]) d) ->
  exists v, In (fst kv, v) d /\ key_in (fst kv) keys = false
            /\ snd kv = recursive_remove keys v.
Proof.
  rewrite in_flat_map. intros ([k v] & Hin & Hkv). simpl in Hkv.
  destruct (key_in k keys) eqn:E; [contradiction|].
  destruct Hkv as [<-|[]]. simpl. now exists v.
Qed.

(** The result of the remover has unique keys and none of the removed
    keys, at every depth. *)
Lemma recursive_remove_clean (keys : list string) (v : value) :
  unique_keys (recursive_remove keys v) /\ free_of keys (recursive_remove keys v).
Proof.
  induction v as [s | d IH | l IH] using value_ind; simpl.
  - split; constructor.
  - rewrite Forall_forall in IH. split.
    + constructor; [apply dict_of_items_NoDup|].
      apply Forall_forall. intros kv Hin.
      apply dict_of_items_In, kept_entries in Hin.
      destruct Hin as (v & Hv & _ & ->). exact (proj1 (IH _ Hv)).
    + constructor. apply Forall_forall. intros kv Hin.
      apply dict_of_items_In, kept_entries in Hin.
      destruct Hin as (v & Hv & Hk & ->). split; [exact Hk|].
      exact (proj2 (IH _ Hv)).
  - split; constructor; apply Forall_forall; intros x Hin;
      apply in_map_iff in Hin; destruct Hin as (y & <- & Hy);
      rewrite Forall_forall in IH; apply (IH y Hy).
Qed.

(** On such a value the remover changes nothing. *)
Lemma recursive_remove_fixed (keys : list string) (v : value) :
  unique_keys v -> free_of keys v -> recursive_remove keys v = v.
Proof.
  induction v as [s | d IH | l IH] using value_ind; simpl; intros Hu Hf.
  - reflexivity.
  - inversion Hu as [| ? Hnd Hud |]; subst.
    inversion Hf as [| ? Hfd |]; subst.
    assert (Hsame :
              flat_map
                (fun kv =>
                   if key_in (fst kv) keys then []
                   else [(fst kv, recursive_remove keys (snd kv))]) d = d).
    { clear Hu Hf Hnd.
      induction d as [|[k x] r IHr]; [reflexivity|].
      inversion IH as [|? ? Hx Hr]; subst.
      inversion Hud as [|? ? Hux Hur]; subst.
      inversion Hfd as [|? ? [Hk Hfx] Hfr]; subst.
      simpl in *. rewrite Hk, (Hx Hux Hfx). simpl. f_equal. now apply IHr. }
    rewrite Hsame. f_equal. now apply dict_of_items_unique.
  - inversion Hu as [| | ? Hul]; subst.
    inversion Hf as [| | ? Hfl]; subst.
    f_equal. clear Hu Hf.
    induction l as [|x r IHr]; [reflexivity|].
    inversion IH as [|? ? Hx Hr]; subst.
    inversion Hul as [|? ? Hux Hur]; subst.
    inversion Hfl as [|? ? Hfx Hfr]; subst.
    simpl. rewrite (Hx Hux Hfx). f_equal. now apply IHr.
Qed.

Lemma recursive_remove_idempotent (keys : list string) (v : value) :
  recursive_remove keys (recursive_remove keys v) = recursive_remove keys v.
Proof.
  destruct (recursive_remove_clean keys v) as [Hu Hf].
  now apply recursive_remove_fixed.
Qed.

(** C7.  Removing the keys of [keys_to_remove] a second time changes
    nothing: the working structure after two calls is the one after one. *)
Theorem remove_keys_idempotent (keys_to_remove : list string)
  (parsed_data : dict value) :
  remove_keys keys_to_remove (remove_keys keys_to_remove parsed_data)
  = remove_keys keys_to_remove parsed_data.
Proof.
  unfold remove_keys. rewrite update_parents_twice.
  apply update_parents_ext. intros v. apply recursive_remove_idempotent.
Qed.

(** ** Key renamer *)

Lemma translated_entries (translation_map : dict string)
  (casing : option (string -> string)) (d : list (string * value))
  (kv : string * value) :
  In kv
    (dict_of_items
       (map
          (fun kv =>
             (apply_casing casing (translate translation_map (fst kv)),
              recursive_translate translation_map casing (snd kv))) d)) ->
  exists k v, In (k, v) d
              /\ fst kv = apply_casing casing (translate translation_map k)
              /\ snd kv = recursive_translate translation_map casing v.
Proof.
  intros H. apply dict_of_items_In, in_map_iff in H.
  destruct H as ([k v] & <- & Hin). now exists k, v.
Qed.








(** A value with unique keys is left alone by the renamer when the map is
    empty and the casing function changes none of its keys. *)
Lemma recursive_translate_fixed (casing : option (string -> string)) (v : value) :
  unique_keys v ->
  (forall k, In k (all_keys v) -> apply_casing casing k = k) ->
  recursive_translate [] casing v = v.
Proof.
  induction v as [s | d IH | l IH] using value_ind; simpl; intros Hu Hc.
  - reflexivity.
  - inversion Hu as [| ? Hnd Hud |]; subst.
    assert (Hsame :
              map
                (fun kv =>
                   (apply_casing casing (translate [] (fst kv)),
                    recursive_translate [] casing (snd kv))) d = d).
    { clear Hu Hnd.
      induction d as [|[k x] r IHr]; [reflexivity|].
      inversion IH as [|? ? Hx Hr]; subst.
      inversion Hud as [|? ? Hux Hur]; subst.
      simpl in *. unfold translate at 1. simpl.
      rewrite (Hc k) by now left.
      rewrite Hx; [|exact Hux|].
      - f_equal. apply IHr; [exact Hr | | exact Hur].
        intros k0 Hk0. apply Hc. right. apply in_or_app. now right.
      - intros k0 Hk0. apply Hc. right. apply in_or_app. now left. }
    rewrite Hsame. f_equal. now apply dict_of_items_unique.
  - inversion Hu as [| | ? Hul]; subst.
    f_equal. clear Hu.
    induction l as [|x r IHr]; [reflexivity|].
    inversion IH as [|? ? Hx Hr]; subst.
    inversion Hul as [|? ? Hux Hur]; subst.
    simpl in *. rewrite Hx; [|exact Hux|].
    + f_equal. apply IHr; [exact Hr | | exact Hur].
      intros k0 Hk0. apply Hc. apply in_or_app. now right.
    + intros k0 Hk0. apply Hc. apply in_or_app. now left.
Qed.

(** C8, as the code has it: with an empty translation map the renamer leaves
    the working structure as it is when no casing function is given, or when
    the casing function changes none of the keys of the structure.  The
    dicts are Python dicts: a key occurs once. *)
Theorem rename_keys_empty_map_noop (casing : option (string -> string))
  (parsed_data : dict value)
  (Hdicts : Forall (fun entry => unique_keys (snd entry)) parsed_data)
  (Hcasing : forall k,
      In k (flat_map (fun entry => all_keys (snd entry)) parsed_data) ->
      apply_casing casing k = k) :
  rename_keys [] casing parsed_data = parsed_data.
Proof.
  unfold rename_keys, update_parents.
  induction parsed_data as [|[p v] r IH]; [reflexivity|].
  inversion Hdicts as [|? ? Hv Hr]; subst. simpl in *.
  rewrite recursive_translate_fixed; [|exact Hv|].
  - f_equal. apply IH; [exact Hr|].
    intros k Hk. apply Hcasing. apply in_or_app. now right.
  - intros k Hk. apply Hcasing. apply in_or_app. now left.
Qed.

Lemma rename_keys_empty_map_noop_witness :
  rename_keys [] None
    [("values", VDict [("price", VStr "100");
                       ("details", VDict [("Name", VStr "Discount Details")])])]
  = [("values", VDict [("price", VStr "100");
                       ("details", VDict [("Name", VStr "Discount Details")])])].
Proof.
  apply (rename_keys_empty_map_noop None).
  - repeat constructor; simpl; intuition discriminate.
  - intros k _. reflexivity.
Defined.

(** C8, as the claim has it, fails: with [str.capitalize] an empty map does
    not leave the keys alone. *)
Lemma rename_keys_empty_map_changes_keys :
  rename_keys [] (Some PyStr.capitalize) [("values", VDict [("price", VStr "100")])]
  = [("values", VDict [("Price", VStr "100")])]
  /\ rename_keys [] (Some PyStr.capitalize)
       [("values", VDict [("price", VStr "100")])]
     <> [("values", VDict [("price", VStr "100")])].
Proof. split; [reflexivity | discriminate]. Qed.

(** ** Key flattener *)

(** C3.  With the default [nested_key="Name"] and [value_key="Value"], for a
    parent whose value is the dict [{"extra": {"Name": "Special Offer",
    "Value": "50% Off"}}] the flattener returns and leaves
    [{"Special Offer": "50% Off"}]; for the dict [{"details": {"Name":
    "Discount Details", "currency": "USD", "discount": "10%"}}] it leaves
    [{"Discount Details": {"currency": "USD", "discount": "10%"}}]. *)
Theorem flatten_default_examples (parent : string) :
  flatten_nested_keys_default
    [(parent,
       VDict [("extra", VDict [("Name", VStr "Special Offer");
                               ("Value", VStr "50% Off")])])]
  = ([(parent, VDict [("Special Offer", VStr "50% Off")])], Done tt)
  /\ flatten_nested_keys_default
       [(parent,
          VDict [("details", VDict [("Name", VStr "Discount Details");
                                    ("currency", VStr "USD");
                                    ("discount", VStr "10%")])])]
     = ([(parent,
           VDict [("Discount Details", VDict [("currency", VStr "USD");
                                              ("discount", VStr "10%")])])],
        Done tt).
Proof. split; reflexivity. Qed.

Lemma promoted_cases (value_key : string) (v : dict value) :
  promoted value_key v = VDict v
  \/ v = [(value_key, promoted value_key v)].
Proof.
  unfold promoted, dict_mem.
  destruct v as [|[k x] [|kv r]]; simpl; auto.
  destruct (String.eqb_spec k value_key) as [->|]; simpl; auto.
Qed.

(** C10.  When the value [dv] of an entry holds [nested_key] with a string
    [new_key], the loop stores under [new_key] the value [promoted]: the dict
    left after the pop, or the value of its single [value_key] entry.  No
    recursive call is made on it: the step is the same for every function
    [rp] the loop could call.  So a flatten pattern inside a matched value
    is still there after one call, and a second call changes the result. *)
Theorem flatten_match_stored_as_is (nested_key value_key k new_key : string)
  (dv remaining : dict value)
  (Hmatch : dict_pop dv nested_key = Some (VStr new_key, remaining)) :
  (forall rp rest new_data,
      parse_items nested_key value_key rp ((k, VDict dv) :: rest) new_data
      = let (rest', o) :=
          parse_items nested_key value_key rp rest
            (dict_set new_data new_key (promoted value_key remaining)) in
        ((k, VDict remaining) :: rest', o))
  /\ snd (recursive_parse nested_key value_key (VDict [(k, VDict dv)]))
     = Done (VDict [(new_key, promoted value_key remaining)])
  /\ (promoted value_key remaining = VDict remaining
      \/ remaining = [(value_key, promoted value_key remaining)])
  /\ flatten_nested_keys_default
       [("values",
          VDict [("a", VDict [("Name", VStr "x");
                              ("b", VDict [("Name", VStr "y");
                                           ("Value", VStr "z")])])])]
     = ([("values",
           VDict [("x", VDict [("b", VDict [("Name", VStr "y");
                                            ("Value", VStr "z")])])])],
        Done tt)
  /\ flatten_nested_keys_default
       [("values",
          VDict [("x", VDict [("b", VDict [("Name", VStr "y");
                                           ("Value", VStr "z")])])])]
     = ([("values", VDict [("x", VDict [("y", VStr "z")])])], Done tt).
Proof.
  split; [|split; [|split; [|split]]].
  - intros rp rest new_data. cbn [parse_items pop_name]. now rewrite Hmatch.
  - cbn [recursive_parse parse_items pop_name]. now rewrite Hmatch.
  - apply promoted_cases.
  - reflexivity.
  - reflexivity.
Qed.

Lemma flatten_match_stored_as_is_witness :
  snd (recursive_parse "Name" "Value"
         (VDict [("a", VDict [("Name", VStr "x");
                              ("b", VDict [("Name", VStr "y");
                                           ("Value", VStr "z")])])]))
  = Done (VDict [("x", VDict [("b", VDict [("Name", VStr "y");
                                           ("Value", VStr "z")])])]).
Proof.
  exact (proj1 (proj2 (flatten_match_stored_as_is
                         "Name" "Value" "a" "x"
                         [("Name", VStr "x");
                          ("b", VDict [("Name", VStr "y"); ("Value", VStr "z")])]
                         [("b", VDict [("Name", VStr "y"); ("Value", VStr "z")])]
                         eq_refl))).
Defined.

(** ** The shape of the working structure *)

Lemma leaves_dict_set (d : dict value) (k : string) (v : value) :
  incl (leaves (VDict (dict_set d k v))) (leaves (VDict d) ++ leaves v).
Proof.
  intros s. simpl. rewrite in_app_iff, !in_flat_map.
  intros (kv & Hkv & Hs). apply dict_set_In in Hkv.
  destruct Hkv as [-> | Hkv]; [now right | left; now exists kv].
Qed.

Lemma leaves_insert_all (items : list (string * value)) (acc : dict value) :
  incl (leaves (VDict (insert_all items acc)))
       (leaves (VDict acc) ++ leaves (VDict items)).
Proof.
  intros s. simpl. rewrite in_app_iff, !in_flat_map.
  intros (kv & Hkv & Hs). apply insert_all_In in Hkv.
  destruct Hkv; [left | right]; now exists kv.
Qed.

Lemma dict_pop_In (d : dict value) (k : string) (x : value) (d' : dict value) :
  dict_pop d k = Some (x, d') -> forall kv, In kv d' -> In kv d.
Proof.
  revert d'. induction d as [|[k0 v0] r IH]; simpl; intros d'; [discriminate|].
  destruct (String.eqb k0 k).
  - intros H kv Hin. injection H as _ <-. now right.
  - destruct (dict_pop r k) as [[y r']|]; [|discriminate].
    intros H kv Hin. injection H as <- <-.
    destruct Hin as [<-|Hin]; [now left | right; now apply (IH r' eq_refl)].
Qed.

Lemma leaves_dict_pop (d : dict value) (k : string) (x : value) (d' : dict value) :
  dict_pop d k = Some (x, d') -> incl (leaves (VDict d')) (leaves (VDict d)).
Proof.
  intros H s. simpl. rewrite !in_flat_map. intros (kv & Hkv & Hs).
  exists kv. split; [now apply (dict_pop_In d k x d' H) | exact Hs].
Qed.

Lemma leaves_promoted (value_key : string) (v : dict value) :
  incl (leaves (promoted value_key v)) (leaves (VDict v)).
Proof.
  destruct (promoted_cases value_key v) as [-> | H].
  - apply incl_refl.
  - rewrite H at 2. simpl. rewrite app_nil_r. apply incl_refl.
Qed.

Lemma recursive_remove_leaves (keys : list string) (v : value) :
  incl (leaves (recursive_remove keys v)) (leaves v).
Proof.
  induction v as [s | d IH | l IH] using value_ind; simpl.
  - apply incl_refl.
  - intros s. rewrite !in_flat_map. intros (kv & Hkv & Hs).
    apply dict_of_items_In, kept_entries in Hkv.
    destruct Hkv as (v & Hv & _ & Hsnd). rewrite Hsnd in Hs.
    rewrite Forall_forall in IH.
    exists (fst kv, v). split; [exact Hv | exact (IH _ Hv s Hs)].
  - intros s. rewrite !in_flat_map. intros (y & Hy & Hs).
    apply in_map_iff in Hy. destruct Hy as (x & <- & Hx).
    rewrite Forall_forall in IH. exists x. split; [exact Hx | exact (IH x Hx s Hs)].
Qed.

Lemma recursive_translate_leaves (translation_map : dict string)
  (casing : option (string -> string)) (v : value) :
  incl (leaves (recursive_translate translation_map casing v)) (leaves v).
Proof.
  induction v as [s | d IH | l IH] using value_ind; simpl.
  - apply incl_refl.
  - intros s. rewrite !in_flat_map. intros (kv & Hkv & Hs).
    apply translated_entries in Hkv.
    destruct Hkv as (k & v & Hv & _ & Hsnd). rewrite Hsnd in Hs.
    rewrite Forall_forall in IH.
    exists (k, v). split; [exact Hv | exact (IH _ Hv s Hs)].
  - intros s. rewrite !in_flat_map. intros (y & Hy & Hs).
    apply in_map_iff in Hy. destruct Hy as (x & <- & Hx).
    rewrite Forall_forall in IH. exists x. split; [exact Hx | exact (IH x Hx s Hs)].
Qed.

Lemma leaves_entry (k : string) (x : value) (r : list (string * value)) :
  leaves (VDict ((k, x) :: r)) = leaves x ++ leaves (VDict r).
Proof. reflexivity. Qed.

Lemma leaves_item (x : value) (r : list value) :
  leaves (VList (x :: r)) = leaves x ++ leaves (VList r).
Proof. reflexivity. Qed.

Lemma pop_name_leaves (nested_key : string) (v name : value) (dv : dict value) :
  pop_name nested_key v = Some (name, dv) ->
  incl (leaves (VDict dv)) (leaves v).
Proof.
  destruct v as [s | d | l]; simpl; try discriminate.
  apply leaves_dict_pop.
Qed.

Lemma parse_items_leaves (nested_key value_key : string)
  (rp : value -> value * outcome value) (items : list (string * value)) :
  Forall (fun kv => keeps_leaves rp (snd kv)) items ->
  forall new_data,
    incl (leaves (VDict (fst (parse_items nested_key value_key rp items new_data))))
         (leaves (VDict items))
    /\ forall nd,
        snd (parse_items nested_key value_key rp items new_data) = Done nd ->
        incl (leaves (VDict nd)) (leaves (VDict new_data) ++ leaves (VDict items)).
Proof.
  induction 1 as [|[k v] rest [Hleft Hres] _ IH]; intros new_data.
  - split; [apply incl_refl|].
    intros nd H. injection H as <-. rewrite app_nil_r. apply incl_refl.
  - cbn [parse_items]. simpl snd in Hleft, Hres. rewrite leaves_entry.
    destruct (pop_name nested_key v) as [[name dv]|] eqn:Hpop.
    + apply pop_name_leaves in Hpop.
      destruct name as [new_key | dn | ln].
      * specialize (IH (dict_set new_data new_key (promoted value_key dv))).
        destruct (parse_items nested_key value_key rp rest
                    (dict_set new_data new_key (promoted value_key dv)))
          as [rest' o].
        cbn [fst snd] in *. destruct IH as [IH1 IH2]. split.
        -- rewrite leaves_entry. now apply incl_app_app.
        -- intros nd Hnd. apply (incl_tran (IH2 nd Hnd)).
           apply incl_app; [|apply incl_appr, incl_appr, incl_refl].
           apply (incl_tran (leaves_dict_set new_data new_key _)).
           apply incl_app; [apply incl_appl, incl_refl|].
           apply incl_appr, incl_appl.
           apply (incl_tran (leaves_promoted value_key dv)). exact Hpop.
      * cbn [fst snd]. split; [|discriminate].
        rewrite leaves_entry. apply incl_app_app; [exact Hpop | apply incl_refl].
      * cbn [fst snd]. split; [|discriminate].
        rewrite leaves_entry. apply incl_app_app; [exact Hpop | apply incl_refl].
    + destruct (rp v) as [v' [y|]]; cbn [fst snd] in *.
      * specialize (IH (dict_set new_data k y)).
        destruct (parse_items nested_key value_key rp rest (dict_set new_data k y))
          as [rest' o].
        cbn [fst snd] in *. destruct IH as [IH1 IH2]. split.
        -- rewrite leaves_entry. now apply incl_app_app.
        -- intros nd Hnd. apply (incl_tran (IH2 nd Hnd)).
           apply incl_app; [|apply incl_appr, incl_appr, incl_refl].
           apply (incl_tran (leaves_dict_set new_data k y)).
           apply incl_app; [apply incl_appl, incl_refl|].
           apply incl_appr, incl_appl. now apply Hres.
      * split; [|discriminate].
        rewrite leaves_entry. apply incl_app_app; [exact Hleft | apply incl_refl].
Qed.

Lemma parse_list_leaves (rp : value -> value * outcome value) (l : list value) :
  Forall (keeps_leaves rp) l ->
  incl (leaves (VList (fst (parse_list rp l)))) (leaves (VList l))
  /\ forall ys, snd (parse_list rp l) = Done ys ->
                incl (leaves (VList ys)) (leaves (VList l)).
Proof.
  induction 1 as [|x rest [Hleft Hres] _ IH].
  - split; [apply incl_refl|]. intros ys H. injection H as <-. apply incl_refl.
  - cbn [parse_list]. rewrite leaves_item.
    destruct (rp x) as [x' [y|]]; cbn [fst snd] in *.
    + destruct (parse_list rp rest) as [rest' o].
      cbn [fst snd] in *. destruct IH as [IH1 IH2]. split.
      * rewrite leaves_item. now apply incl_app_app.
      * intros ys Hys. destruct o as [ys'|]; [|discriminate].
        injection Hys as <-. rewrite leaves_item.
        apply incl_app_app; [now apply Hres | now apply IH2].
    + split; [|discriminate].
      rewrite leaves_item. apply incl_app_app; [exact Hleft | apply incl_refl].
Qed.

(** A call of the flattener brings no new leaf string. *)
Lemma recursive_parse_leaves (nested_key value_key : string) (v : value) :
  keeps_leaves (recursive_parse nested_key value_key) v.
Proof.
  induction v as [s | d IH | l IH] using value_ind.
  - split; [apply incl_refl|]. intros y H. injection H as <-. apply incl_refl.
  - unfold keeps_leaves. cbn [recursive_parse].
    destruct (parse_items_leaves nested_key value_key _ d IH []) as [H1 H2].
    destruct (parse_items nested_key value_key
                (recursive_parse nested_key value_key) d []) as [d' o].
    cbn [fst snd] in *. split; [exact H1|].
    intros y Hy. destruct o as [nd|]; [|discriminate].
    injection Hy as <-. exact (H2 nd eq_refl).
  - unfold keeps_leaves. cbn [recursive_parse].
    destruct (parse_list_leaves _ l IH) as [H1 H2].
    destruct (parse_list (recursive_parse nested_key value_key) l) as [l' o].
    cbn [fst snd] in *. split; [exact H1|].
    intros y Hy. destruct o as [ys|]; [|discriminate].
    injection Hy as <-. exact (H2 ys eq_refl).
Qed.

Lemma shape_kept_refl (parsed_data : dict value) :
  shape_kept parsed_data parsed_data.
Proof.
  induction parsed_data as [|e r IH]; constructor; [|exact IH].
  split; [reflexivity | apply incl_refl].
Qed.

Lemma update_parents_shape (f : value -> value) (parsed_data : dict value) :
  (forall v, incl (leaves (f v)) (leaves v)) ->
  shape_kept parsed_data (update_parents f parsed_data).
Proof.
  intros Hf. induction parsed_data as [|[p v] r IH]; constructor; [|exact IH].
  split; [reflexivity | apply Hf].
Qed.

Lemma flatten_parents_shape (nested_key value_key : string)
  (parsed_data : dict value) :
  shape_kept parsed_data (fst (flatten_parents nested_key value_key parsed_data)).
Proof.
  induction parsed_data as [|[p v] r IH]; [constructor|].
  cbn [flatten_parents].
  destruct (recursive_parse_leaves nested_key value_key v) as [Hleft Hres].
  destruct (recursive_parse nested_key value_key v) as [v' [y|]];
    cbn [fst snd] in *.
  - destruct (flatten_parents nested_key value_key r) as [r' o].
    cbn [fst] in *. constructor; [|exact IH].
    split; [reflexivity | now apply Hres].
  - constructor; [|apply shape_kept_refl].
    split; [reflexivity | exact Hleft].
Qed.

(** C9.  Each transform leaves a working structure with the same parent
    names in the same order, each mapped to a value (a string, a dict or a
    list: the type [value]) whose leaves are leaf strings of the value the
    parent had before: no leaf is introduced.  For the flattener this holds
    of the structure it leaves whether the call returns or raises. *)
Theorem transforms_keep_shape (parsed_data : dict value)
  (keys_to_remove : list string) (nested_key value_key : string)
  (translation_map : dict string) (casing : option (string -> string)) :
  shape_kept parsed_data (remove_keys keys_to_remove parsed_data)
  /\ shape_kept parsed_data
       (fst (flatten_nested_keys nested_key value_key parsed_data))
  /\ shape_kept parsed_data (rename_keys translation_map casing parsed_data).
Proof.
  split; [|split].
  - apply update_parents_shape. apply recursive_remove_leaves.
  - apply flatten_parents_shape.
  - apply update_parents_shape. apply recursive_translate_leaves.
Qed.

(** ** The example run *)

(** C4, as the code has it: the run returns; [header] has no [meta] key; in
    [values], [Cost] is [100], [Amount] is [5], [Special offer] is [50% Off]
    and [Discount details] is the dict of [Currency: USD] and [Rebate: 10%]:
    [str.capitalize] is applied to every key, and it lowers what follows the
    first character. *)
Theorem example_run_result :
  Sample.run
  = ([("header",
        VDict [("Ntitle", VStr "Sample Title"); ("Date", VStr "2025-03-13")]);
      ("values",
        VDict [("Cost", VStr "100");
               ("Amount", VStr "5");
               ("Discount details",
                 VDict [("Currency", VStr "USD"); ("Rebate", VStr "10%")]);
               ("Special offer", VStr "50% Off")])],
     Done tt)
  /\ (forall header,
         dict_get (fst Sample.run) "header" = Some (VDict header) ->
         dict_mem header "meta" = false).
Proof.
  split; [reflexivity|].
  intros header H. vm_compute in H. injection H as <-. reflexivity.
Qed.

Lemma example_run_result_witness :
  dict_mem [("Ntitle", VStr "Sample Title"); ("Date", VStr "2025-03-13")] "meta"
  = false.
Proof.
  exact (proj2 example_run_result
           [("Ntitle", VStr "Sample Title"); ("Date", VStr "2025-03-13")]
           eq_refl).
Defined.

(** C4, as the claim has it, fails: after the run, [values] has no key
    [Discount Details] and no key [Special Offer], and the dict under
    [Discount details] has no key [currency]. *)
Lemma example_run_keys_recased :
  exists values,
    dict_get (fst Sample.run) "values" = Some (VDict values)
    /\ dict_get values "Discount Details" = None
    /\ dict_get values "Special Offer" = None
    /\ dict_get values "Discount details"
       = Some (VDict [("Currency", VStr "USD"); ("Rebate", VStr "10%")]).
Proof.
  eexists. split; [reflexivity|]. repeat split.
Qed.

(** * Further properties *)

(** ** Namespace stripper: what one call leaves *)

Lemma brace_group_end_shorter (rest r : string) :
  brace_group_end rest = Some r -> String.length r < String.length rest.
Proof.
  induction rest as [|d t IH]; simpl; [discriminate|].
  destruct (Ascii.eqb d "}").
  - intros H. injection H as <-. lia.
  - destruct (Ascii.eqb d PyStr.newline); [discriminate|].
    intros H. apply IH in H. lia.
Qed.

(** Induction along the scan of [strip_namespace]: a character is copied, or
    a brace group is jumped over. *)
Lemma strip_namespace_scan_ind (P : string -> Prop) :
  P EmptyString ->
  (forall c rest,
      Ascii.eqb c "{" = false \/ brace_group_end rest = None ->
      P rest -> P (String c rest)) ->
  (forall c rest r,
      Ascii.eqb c "{" = true -> brace_group_end rest = Some r ->
      P r -> P (String c rest)) ->
  forall s, P s.
Proof.
  intros Hnil Hcopy Hjump s.
  assert (H : forall n s, String.length s < n -> P s).
  { clear s. induction n as [|n IH]; intros s Hlen; [lia|].
    destruct s as [|c rest]; [exact Hnil|].
    simpl in Hlen.
    destruct (Ascii.eqb c "{") eqn:Ec.
    - destruct (brace_group_end rest) as [r|] eqn:Er.
      + apply (Hjump c rest r Ec Er). apply IH.
        apply brace_group_end_shorter in Er. lia.
      + apply Hcopy; [now right | apply IH; lia].
    - apply Hcopy; [now left | apply IH; lia]. }
  apply (H (S (String.length s))). lia.
Qed.

Lemma strip_namespace_copy (c : ascii) (rest : string) :
  Ascii.eqb c "{" = false \/ brace_group_end rest = None ->
  strip_namespace (String c rest) = String c (strip_namespace rest).
Proof.
  intros H. rewrite strip_namespace_step.
  destruct (Ascii.eqb c "{"); [|reflexivity].
  destruct H as [H|H]; [discriminate | now rewrite H].
Qed.

Lemma strip_namespace_jump (c : ascii) (rest r : string) :
  Ascii.eqb c "{" = true -> brace_group_end rest = Some r ->
  strip_namespace (String c rest) = strip_namespace r.
Proof.
  intros Hc Hr. rewrite strip_namespace_step. now rewrite Hc, Hr.
Qed.

(** An opening brace that found no closing brace finds none after the
    groups behind it are removed. *)
Lemma brace_group_end_after_strip (t : string) :
  brace_group_end t = None -> brace_group_end (strip_namespace t) = None.
Proof.
  induction t as [|d t IH]; [reflexivity|].
  cbn [brace_group_end].
  destruct (Ascii.eqb d "}") eqn:Eclose; [discriminate|].
  destruct (Ascii.eqb d PyStr.newline) eqn:Enl.
  - intros _. rewrite strip_namespace_copy.
    + cbn [brace_group_end]. now rewrite Eclose, Enl.
    + left. apply Ascii.eqb_eq in Enl. subst d. reflexivity.
  - intros H. rewrite strip_namespace_copy by now right.
    cbn [brace_group_end]. rewrite Eclose, Enl. now apply IH.
Qed.

Lemma strip_namespace_settled (tag : string) :
  settled (strip_namespace tag) = true.
Proof.
  induction tag as [| c rest Hc IH | c rest r Hc Hr IH]
    using strip_namespace_scan_ind.
  - reflexivity.
  - rewrite strip_namespace_copy by exact Hc.
    cbn [settled]. rewrite IH, andb_true_r.
    destruct (Ascii.eqb c "{"); [|reflexivity].
    destruct Hc as [Hc|Hc]; [discriminate|].
    now rewrite brace_group_end_after_strip.
  - now rewrite (strip_namespace_jump c rest r).
Qed.

Lemma strip_namespace_of_settled (tag : string) :
  settled tag = true -> strip_namespace tag = tag.
Proof.
  induction tag as [|c rest IH]; [reflexivity|].
  cbn [settled]. intros H. apply andb_prop in H as [Hc Hrest].
  rewrite strip_namespace_copy.
  - now rewrite IH.
  - destruct (Ascii.eqb c "{"); [|now left].
    right. destruct (brace_group_end rest); [discriminate | reflexivity].
Qed.

(** X1.  Stripping twice is stripping once: the result of [strip_namespace]
    has no brace group left.  A tag is returned as it is exactly when it has
    no brace group. *)
Theorem strip_namespace_idempotent (tag : string) :
  strip_namespace (strip_namespace tag) = strip_namespace tag
  /\ settled (strip_namespace tag) = true
  /\ (strip_namespace tag = tag <-> settled tag = true).
Proof.
  split; [|split; [|split]].
  - apply strip_namespace_of_settled, strip_namespace_settled.
  - apply strip_namespace_settled.
  - intros H. rewrite <- H. apply strip_namespace_settled.
  - apply strip_namespace_of_settled.
Qed.

(** X2.  [strip_namespace] never makes a tag longer, and a result as long as
    the tag is the tag. *)
Theorem strip_namespace_shortens (tag : string) :
  String.length (strip_namespace tag) <= String.length tag
  /\ (String.length (strip_namespace tag) = String.length tag ->
      strip_namespace tag = tag).
Proof.
  induction tag as [| c rest Hc [IH1 IH2] | c rest r Hc Hr [IH1 IH2]]
    using strip_namespace_scan_ind.
  - split; [simpl; lia | reflexivity].
  - rewrite strip_namespace_copy by exact Hc. simpl. split; [lia|].
    intros H. f_equal. apply IH2. lia.
  - rewrite (strip_namespace_jump c rest r Hc Hr).
    apply brace_group_end_shorter in Hr. simpl. split; [lia|]. intros H. lia.
Qed.

Lemma strip_namespace_shortens_witness :
  strip_namespace "{a" = "{a".
Proof.
  apply (proj2 (strip_namespace_shortens "{a")). reflexivity.
Defined.

(** ** Namespace stripper: the whole scan *)

Lemma inside_group_no_end (u : string) :
  PyStr.all_chars inside_group u = true -> brace_group_end u = None.
Proof.
  induction u as [|c r IH]; [reflexivity|].
  cbn [PyStr.all_chars brace_group_end]. intros H.
  apply andb_prop in H as [Hc Hr]. unfold inside_group in Hc.
  apply andb_prop in Hc as [H1 H2].
  destruct (Ascii.eqb c "}"); [discriminate|].
  destruct (Ascii.eqb c PyStr.newline); [discriminate|].
  auto.
Qed.

Lemma inside_group_newline_no_end (u w : string) :
  PyStr.all_chars inside_group u = true ->
  brace_group_end (u ++ String PyStr.newline w)%string = None.
Proof.
  induction u as [|c r IH]; [reflexivity|].
  cbn [PyStr.all_chars append brace_group_end]. intros H.
  apply andb_prop in H as [Hc Hr]. unfold inside_group in Hc.
  apply andb_prop in Hc as [H1 H2].
  destruct (Ascii.eqb c "}"); [discriminate|].
  destruct (Ascii.eqb c PyStr.newline); [discriminate|].
  auto.
Qed.

Lemma strip_namespace_inside (u : string) :
  PyStr.all_chars inside_group u = true -> strip_namespace u = u.
Proof.
  induction u as [|c r IH]; [reflexivity|].
  cbn [PyStr.all_chars]. intros H. apply andb_prop in H as [Hc Hr].
  rewrite strip_namespace_copy; [now rewrite IH|].
  right. now apply inside_group_no_end.
Qed.

Lemma strip_namespace_inside_newline (u w : string) :
  PyStr.all_chars inside_group u = true ->
  strip_namespace (u ++ String PyStr.newline w)%string
  = (u ++ String PyStr.newline (strip_namespace w))%string.
Proof.
  induction u as [|c r IH].
  - intros _. cbn [append]. apply strip_namespace_copy. now left.
  - cbn [PyStr.all_chars append]. intros H. apply andb_prop in H as [Hc Hr].
    rewrite strip_namespace_copy; [now rewrite IH|].
    right. now apply inside_group_newline_no_end.
Qed.

Lemma brace_group_end_Some_split (rest r : string) :
  brace_group_end rest = Some r ->
  exists u, PyStr.all_chars inside_group u = true
            /\ rest = (u ++ String "}" r)%string.
Proof.
  induction rest as [|d t IH]; cbn [brace_group_end]; [discriminate|].
  destruct (Ascii.eqb d "}") eqn:Eclose.
  - intros H. injection H as <-. apply Ascii.eqb_eq in Eclose. subst d.
    now exists EmptyString.
  - destruct (Ascii.eqb d PyStr.newline) eqn:Enl; [discriminate|].
    intros H. destruct (IH H) as (u & Hu & ->).
    exists (String d u). split; [|reflexivity].
    cbn [PyStr.all_chars]. unfold inside_group at 1.
    now rewrite Eclose, Enl, Hu.
Qed.

Lemma brace_group_end_None_split (rest : string) :
  brace_group_end rest = None ->
  PyStr.all_chars inside_group rest = true
  \/ exists u w, PyStr.all_chars inside_group u = true
                 /\ rest = (u ++ String PyStr.newline w)%string.
Proof.
  induction rest as [|d t IH]; cbn [brace_group_end]; [now left|].
  destruct (Ascii.eqb d "}") eqn:Eclose; [discriminate|].
  destruct (Ascii.eqb d PyStr.newline) eqn:Enl.
  - intros _. right. apply Ascii.eqb_eq in Enl. subst d.
    now exists EmptyString, t.
  - intros H. destruct (IH H) as [Hin | (u & w & Hu & ->)].
    + left. cbn [PyStr.all_chars]. unfold inside_group at 1.
      now rewrite Eclose, Enl, Hin.
    + right. exists (String d u), w. split; [|reflexivity].
      cbn [PyStr.all_chars]. unfold inside_group at 1.
      now rewrite Eclose, Enl, Hu.
Qed.

Lemma strip_namespace_scan : brace_group_scan strip_namespace.
Proof.
  split; [reflexivity | split; [|split; [|split]]].
  - intros c rest Hc. apply strip_namespace_copy. left.
    unfold not_open in Hc. now destruct (Ascii.eqb c "{").
  - intros u rest Hu. apply (strip_namespace_jump "{" _ rest); [reflexivity|].
    now apply brace_group_end_found.
  - intros u Hu. apply strip_namespace_copy. right.
    now apply inside_group_no_end.
  - intros u w Hu. apply strip_namespace_copy. right.
    now apply inside_group_newline_no_end.
Qed.

Lemma brace_group_scan_unique (f : string -> string) :
  brace_group_scan f -> forall tag, f tag = strip_namespace tag.
Proof.
  intros (Hnil & Hcopy & Hdrop & Hend & Hnl) tag.
  induction tag as [| c rest Hc IH | c rest r Hc Hr IH]
    using strip_namespace_scan_ind.
  - exact Hnil.
  - rewrite strip_namespace_copy by exact Hc.
    destruct (Ascii.eqb c "{") eqn:Ec.
    + apply Ascii.eqb_eq in Ec. subst c.
      destruct Hc as [Hc|Hc]; [discriminate|].
      destruct (brace_group_end_None_split rest Hc) as [Hin | (u & w & Hu & ->)].
      * now rewrite (Hend rest Hin), IH.
      * now rewrite (Hnl u w Hu), IH.
    + rewrite Hcopy; [now rewrite IH|]. unfold not_open. now rewrite Ec.
  - rewrite (strip_namespace_jump c rest r Hc Hr).
    apply Ascii.eqb_eq in Hc. subst c.
    destruct (brace_group_end_Some_split rest r Hr) as (u & Hu & ->).
    now rewrite (Hdrop u r Hu).
Qed.

(** C2, as the code has it: the substitution is global.  In one scan from
    left to right, every brace group (an opening brace, then characters that
    are neither a closing brace nor a newline, then the first closing brace)
    is removed wherever it stands and the scan goes on behind it, also
    behind a prefix [pre] without opening braces; every other character is
    kept, an opening brace that meets the end of the tag or a newline before
    a closing brace included.  These equations are met by [strip_namespace]
    and by no other function.  A tag without a brace group is returned as it
    is; the tag [{http://example.com}price] gives [price]. *)
Theorem strip_namespace_removes_groups (pre u rest : string)
  (Hpre : PyStr.all_chars not_open pre = true)
  (Hu : PyStr.all_chars inside_group u = true) :
  strip_namespace (pre ++ String "{" (u ++ String "}" rest))%string
  = (pre ++ strip_namespace rest)%string
  /\ strip_namespace pre = pre
  /\ strip_namespace (String "{" (u ++ String "}" rest)%string)
     = strip_namespace rest
  /\ strip_namespace (String "{" u) = String "{" u
  /\ strip_namespace (String "{" (u ++ String PyStr.newline rest)%string)
     = String "{" (u ++ String PyStr.newline (strip_namespace rest))%string
  /\ brace_group_scan strip_namespace
  /\ (forall f, brace_group_scan f -> forall tag, f tag = strip_namespace tag)
  /\ (forall tag, settled tag = true -> strip_namespace tag = tag)
  /\ strip_namespace "{http://example.com}price" = "price".
Proof.
  destruct strip_namespace_scan as (_ & _ & Hdrop & Hend & Hnl).
  repeat split.
  - rewrite strip_namespace_prefix by exact Hpre. f_equal. now apply Hdrop.
  - now apply strip_namespace_no_open.
  - now apply Hdrop.
  - rewrite (Hend u Hu). f_equal. now apply strip_namespace_inside.
  - rewrite (Hnl u rest Hu). f_equal. now apply strip_namespace_inside_newline.
  - intros c r Hc. apply strip_namespace_copy. left.
    unfold not_open in Hc. now destruct (Ascii.eqb c "{").
  - exact Hdrop.
  - exact Hend.
  - exact Hnl.
  - apply brace_group_scan_unique.
  - apply strip_namespace_of_settled.
Qed.

Lemma strip_namespace_removes_groups_witness :
  strip_namespace "a{b}c{d}" = "ac"
  /\ strip_namespace "a" = "a"
  /\ strip_namespace "{b" = "{b"
  /\ strip_namespace "a{b" = "a{b".
Proof.
  destruct (strip_namespace_removes_groups "a" "b" "c{d}" eq_refl eq_refl)
    as (H1 & H2 & _ & H4 & _ & _ & _ & Hsettled & _).
  split; [exact H1 | split; [exact H2 | split; [exact H4|]]].
  apply Hsettled. reflexivity.
Defined.

(** ** Tree extractor: the shape of what it builds *)

Lemma parse_element_entries (e : element) (kv : string * value) :
  In kv (parse_element e) ->
  exists c, In c (echildren e)
            /\ kv = (strip_namespace (etag c), child_value c).
Proof.
  rewrite parse_element_children. intros H.
  apply (dict_of_items_In _ _ kv) in H. apply in_map_iff in H.
  destruct H as (c & <- & Hc). now exists c.
Qed.

Lemma parse_element_shape (e : element) :
  unique_keys (VDict (parse_element e)) /\ list_free (VDict (parse_element e)).
Proof.
  induction e as [t x cs IH] using element_ind.
  assert (Hentries : forall kv,
             In kv (parse_element (Element t x cs)) ->
             unique_keys (snd kv) /\ list_free (snd kv)).
  { intros kv Hkv. apply parse_element_entries in Hkv.
    destruct Hkv as (c & Hc & ->). simpl in Hc. cbn [snd].
    rewrite Forall_forall in IH. unfold child_value.
    destruct (echildren c); [split; constructor | exact (IH c Hc)]. }
  split; constructor.
  - rewrite parse_element_children. apply dict_of_items_NoDup.
  - apply Forall_forall. intros kv Hkv. exact (proj1 (Hentries kv Hkv)).
  - apply Forall_forall. intros kv Hkv. exact (proj2 (Hentries kv Hkv)).
Qed.

(** The loop over the parents, from any dict built so far. *)
Lemma extracted_loop_entries (root : element) (parents : list string)
  (acc : dict value) (kv : string * value) :
  In kv
    (fold_left
       (fun extracted_data parent =>
          match first_match root parent with
          | Some elem => dict_set extracted_data parent (VDict (parse_element elem))
          | None => extracted_data
          end) parents acc) ->
  In kv acc \/ exists elem, snd kv = VDict (parse_element elem).
Proof.
  revert acc. induction parents as [|q r IH]; intros acc; [now left|].
  cbn [fold_left]. intros H. apply IH in H. destruct H as [H|H]; [|now right].
  destruct (first_match root q) as [elem|]; [|now left].
  apply dict_set_In in H. destruct H as [-> | H]; [right | now left].
  now exists elem.
Qed.

Lemma extracted_loop_NoDup (root : element) (parents : list string)
  (acc : dict value) :
  NoDup (dict_keys acc) ->
  NoDup
    (dict_keys
       (fold_left
          (fun extracted_data parent =>
             match first_match root parent with
             | Some elem =>
                 dict_set extracted_data parent (VDict (parse_element elem))
             | None => extracted_data
             end) parents acc)).
Proof.
  revert acc. induction parents as [|q r IH]; intros acc H; [exact H|].
  cbn [fold_left]. apply IH.
  destruct (first_match root q); [now apply dict_set_NoDup | exact H].
Qed.

(** X3.  What the extractor builds: each parent name occurs once, each is
    mapped to a dict, and that dict has unique keys at every depth and holds
    no list. *)
Theorem extraction_shape (root : element) (parent_elements : list string) :
  NoDup (dict_keys (parse_xml_to_dict root parent_elements))
  /\ Forall
       (fun entry =>
          unique_keys (snd entry) /\ list_free (snd entry)
          /\ exists d, snd entry = VDict d)
       (parse_xml_to_dict root parent_elements).
Proof.
  split.
  - apply extracted_loop_NoDup. constructor.
  - apply Forall_forall. intros kv Hkv.
    apply extracted_loop_entries in Hkv. destruct Hkv as [[] | (elem & ->)].
    destruct (parse_element_shape elem) as [Hu Hl].
    split; [exact Hu | split; [exact Hl | now exists (parse_element elem)]].
Qed.



Lemma dict_set_same_value {V : Type} (d : dict V) (k : string) (v : V) :
  dict_get d k = Some v -> dict_set d k v = d.
Proof.
  induction d as [|[k' v'] r IH]; simpl; [discriminate|].
  destruct (String.eqb_spec k' k) as [->|Hne].
  - intros H. now injection H as ->.
  - intros H. now rewrite IH.
Qed.

(** X5.  A parent name requested a second time changes nothing: the entry
    is assigned the same dict again. *)
Theorem extraction_ignores_repeats (root : element) (pre post : list string)
  (p : string) (Hseen : In p pre) :
  parse_xml_to_dict root (pre ++ p :: post) = parse_xml_to_dict root (pre ++ post).
Proof.
  unfold parse_xml_to_dict. rewrite !fold_left_app. cbn [fold_left].
  f_equal.
  assert (Hget := extracted_entry root pre [] p).
  rewrite (requested_existsb p pre Hseen) in Hget.
  destruct (first_match root p) as [elem|]; [|reflexivity].
  now apply dict_set_same_value.
Qed.

Lemma extraction_ignores_repeats_witness :
  parse_xml_to_dict Sample.root ["values"; "header"; "values"]
  = parse_xml_to_dict Sample.root ["values"; "header"].
Proof.
  exact (extraction_ignores_repeats Sample.root ["values"; "header"] []
           "values" (or_introl eq_refl)).
Defined.

(** ** Key remover: what is gone, what stays, how calls compose *)

Lemma free_of_all_keys (keys : list string) (v : value) :
  free_of keys v <-> Forall (fun k => key_in k keys = false) (all_keys v).
Proof.
  induction v as [s | d IH | l IH] using value_ind; simpl.
  - split; constructor.
  - split.
    + intros H. inversion H as [| ? Hd |]; subst. clear H.
      induction d as [|[k x] r IHr]; simpl; [constructor|].
      inversion IH as [|? ? Hx Hr]; subst.
      inversion Hd as [|? ? [Hk Hfx] Hfr]; subst. simpl in *.
      constructor; [exact Hk|]. apply Forall_app. split.
      * now apply Hx.
      * now apply IHr.
    + intros H. constructor.
      induction d as [|[k x] r IHr]; simpl in *; [constructor|].
      inversion IH as [|? ? Hx Hr]; subst.
      inversion H as [|? ? Hk Hrest]; subst.
      apply Forall_app in Hrest as [H1 H2]. simpl in *.
      constructor; [split; [exact Hk | now apply Hx] | now apply IHr].
  - split.
    + intros H. inversion H as [| | ? Hl]; subst. clear H.
      induction l as [|x r IHr]; simpl; [constructor|].
      inversion IH as [|? ? Hx Hr]; subst.
      inversion Hl as [|? ? Hfx Hfr]; subst.
      apply Forall_app. split; [now apply Hx | now apply IHr].
    + intros H. constructor.
      induction l as [|x r IHr]; simpl in *; [constructor|].
      inversion IH as [|? ? Hx Hr]; subst.
      apply Forall_app in H as [H1 H2].
      constructor; [now apply Hx | now apply IHr].
Qed.

(** X6.  After [remove_keys], no dict below a parent has a removed key, at
    any depth, and every dict has unique keys; the parent names themselves
    all stay, listed for removal or not. *)
Theorem remove_keys_removes_everywhere (keys_to_remove : list string)
  (parsed_data : dict value) :
  Forall
    (fun entry =>
       Forall (fun k => key_in k keys_to_remove = false) (all_keys (snd entry))
       /\ unique_keys (snd entry))
    (remove_keys keys_to_remove parsed_data)
  /\ dict_keys (remove_keys keys_to_remove parsed_data) = dict_keys parsed_data.
Proof.
  unfold remove_keys, update_parents, dict_keys. split.
  - apply Forall_forall. intros entry Hin. apply in_map_iff in Hin.
    destruct Hin as ([p v] & <- & _). cbn [snd].
    destruct (recursive_remove_clean keys_to_remove v) as [Hu Hf].
    split; [now apply free_of_all_keys | exact Hu].
  - rewrite map_map. reflexivity.
Qed.

(** X7.  Removing keys that occur nowhere in the working structure changes
    nothing; in particular the empty list of keys. *)
Theorem remove_keys_absent_noop (keys_to_remove : list string)
  (parsed_data : dict value)
  (Hdicts : Forall (fun entry => unique_keys (snd entry)) parsed_data)
  (Habsent : Forall
               (fun entry =>
                  Forall (fun k => key_in k keys_to_remove = false)
                    (all_keys (snd entry)))
               parsed_data) :
  remove_keys keys_to_remove parsed_data = parsed_data.
Proof.
  unfold remove_keys, update_parents.
  induction parsed_data as [|[p v] r IH]; [reflexivity|].
  inversion Hdicts as [|? ? Hv Hr]; subst.
  inversion Habsent as [|? ? Hav Har]; subst. simpl in *.
  rewrite recursive_remove_fixed; [|exact Hv | now apply free_of_all_keys].
  f_equal. now apply IH.
Qed.

Lemma remove_keys_absent_noop_witness :
  remove_keys []
    [("values", VDict [("price", VStr "100");
                       ("details", VDict [("Name", VStr "Discount Details")])])]
  = [("values", VDict [("price", VStr "100");
                       ("details", VDict [("Name", VStr "Discount Details")])])].
Proof.
  apply remove_keys_absent_noop.
  - repeat constructor; simpl; intuition discriminate.
  - repeat constructor.
Defined.

Lemma kept_keys (keys : list string) (d : list (string * value)) :
  dict_keys
    (flat_map
       (fun kv =>
          if key_in (fst kv) keys then []
          else [(fst kv, recursive_remove keys (snd kv))]) d)
  = filter (fun k => negb (key_in k keys)) (dict_keys d).
Proof.
  induction d as [|[k x] r IH]; [reflexivity|].
  simpl. destruct (key_in k keys); simpl; [exact IH | now rewrite <- IH].
Qed.

Lemma key_in_app (k : string) (keys1 keys2 : list string) :
  key_in k (keys1 ++ keys2) = key_in k keys1 || key_in k keys2.
Proof. unfold key_in. apply existsb_app. Qed.

(** Two removals in a row are one removal of both lists. *)
Lemma recursive_remove_twice (keys1 keys2 : list string) (v : value) :
  unique_keys v ->
  recursive_remove keys2 (recursive_remove keys1 v)
  = recursive_remove (keys1 ++ keys2) v.
Proof.
  induction v as [s | d IH | l IH] using value_ind; intros Hu.
  - reflexivity.
  - inversion Hu as [| ? Hnd Hud |]; subst.
    cbn [recursive_remove].
    rewrite (dict_of_items_unique _ (flat_map _ d)).
    + f_equal. f_equal. clear Hu Hnd.
      induction d as [|[k x] r IHr]; [reflexivity|].
      inversion IH as [|? ? Hx Hr]; subst.
      inversion Hud as [|? ? Hux Hur]; subst.
      cbn [flat_map fst snd] in *. rewrite key_in_app.
      destruct (key_in k keys1); cbn [app orb flat_map fst snd].
      * now apply IHr.
      * destruct (key_in k keys2); cbn [app].
        -- now apply IHr.
        -- rewrite (Hx Hux). f_equal. now apply IHr.
    + rewrite kept_keys. now apply NoDup_filter.
  - inversion Hu as [| | ? Hul]; subst.
    cbn [recursive_remove]. f_equal. rewrite map_map.
    clear Hu. induction l as [|x r IHr]; [reflexivity|].
    inversion IH as [|? ? Hx Hr]; subst.
    inversion Hul as [|? ? Hux Hur]; subst.
    simpl. rewrite (Hx Hux). f_equal. now apply IHr.
Qed.

Lemma recursive_remove_same_keys (keys keys' : list string) (v : value) :
  (forall k, key_in k keys = key_in k keys') ->
  recursive_remove keys v = recursive_remove keys' v.
Proof.
  intros Hsame.
  induction v as [s | d IH | l IH] using value_ind; cbn [recursive_remove].
  - reflexivity.
  - f_equal. f_equal.
    induction d as [|[k x] r IHr]; [reflexivity|].
    inversion IH as [|? ? Hx Hr]; subst.
    cbn [flat_map fst snd] in *. rewrite (Hsame k), Hx. f_equal. now apply IHr.
  - f_equal. induction l as [|x r IHr]; [reflexivity|].
    inversion IH as [|? ? Hx Hr]; subst.
    simpl. rewrite Hx. f_equal. now apply IHr.
Qed.

(** X8.  On Python dicts, removing [keys1] and then [keys2] is removing the
    keys of both lists at once, so the order of two removals does not
    matter. *)
Theorem remove_keys_compose (keys1 keys2 : list string)
  (parsed_data : dict value)
  (Hdicts : Forall (fun entry => unique_keys (snd entry)) parsed_data) :
  remove_keys keys2 (remove_keys keys1 parsed_data)
  = remove_keys (keys1 ++ keys2) parsed_data
  /\ remove_keys keys2 (remove_keys keys1 parsed_data)
     = remove_keys keys1 (remove_keys keys2 parsed_data).
Proof.
  assert (Hunion : forall a b,
             remove_keys b (remove_keys a parsed_data)
             = remove_keys (a ++ b) parsed_data).
  { intros a b. unfold remove_keys. rewrite update_parents_twice.
    unfold update_parents. apply map_ext_in. intros [p v] Hin. cbn [fst snd].
    rewrite Forall_forall in Hdicts.
    now rewrite (recursive_remove_twice a b v (Hdicts _ Hin)). }
  split; [apply Hunion|].
  rewrite !Hunion. unfold remove_keys. apply update_parents_ext. intros v.
  apply recursive_remove_same_keys. intros k.
  rewrite !key_in_app. apply orb_comm.
Qed.

Lemma extracted_dicts_unique (root : element) (parent_elements : list string) :
  Forall (fun entry => unique_keys (snd entry))
    (parse_xml_to_dict root parent_elements).
Proof.
  apply Forall_forall. intros kv Hkv.
  apply extracted_loop_entries in Hkv. destruct Hkv as [[] | (elem & ->)].
  exact (proj1 (parse_element_shape elem)).
Qed.

Lemma remove_keys_compose_witness :
  remove_keys ["date"] (remove_keys ["meta"] (XMLParser_init Sample.root None))
  = remove_keys ["meta"; "date"] (XMLParser_init Sample.root None).
Proof.
  apply (proj1 (remove_keys_compose ["meta"] ["date"]
                  (XMLParser_init Sample.root None)
                  (extracted_dicts_unique Sample.root ["header"; "values"]))).
Defined.

(** ** Key renamer: collisions and the keys of the map *)

Lemma insert_all_length {V : Type} (items : list (string * V)) (acc : dict V) :
  List.length (insert_all items acc) <= List.length acc + List.length items.
Proof.
  revert acc. induction items as [|[k v] r IH]; intros acc; simpl; [lia|].
  specialize (IH (dict_set acc k v)).
  assert (Hset : List.length (dict_set acc k v) <= S (List.length acc)).
  { clear IH. induction acc as [|[k' v'] a IHa]; simpl; [lia|].
    destruct (String.eqb k' k); simpl; lia. }
  unfold insert_all in *. lia.
Qed.

(** X9.  Whatever [str.lower] does: when several keys of a dict are renamed
    to the same key, one entry is left under it, holding the translated value
    of the last of them; the rewritten dict is never larger than the
    original. *)
Theorem rename_keys_collision_last_wins (str_lower : string -> string)
  (translation_map : dict string)
  (casing : option (string -> string)) (pre post : list (string * value))
  (k : string) (v : value)
  (Hlast : Forall
             (fun kv =>
                apply_casing casing
                  (translate_with str_lower translation_map (fst kv))
                <> apply_casing casing
                     (translate_with str_lower translation_map k))
             post) :
  exists d',
    recursive_translate_with str_lower translation_map casing
      (VDict (pre ++ (k, v) :: post))
    = VDict d'
    /\ dict_get d'
         (apply_casing casing (translate_with str_lower translation_map k))
       = Some (recursive_translate_with str_lower translation_map casing v)
    /\ entries_under d'
         (apply_casing casing (translate_with str_lower translation_map k)) = 1
    /\ List.length d' <= List.length (pre ++ (k, v) :: post).
Proof.
  eexists. split; [reflexivity|].
  assert (Hget :
            dict_get
              (dict_of_items
                 (map
                    (fun kv =>
                       (apply_casing casing
                          (translate_with str_lower translation_map (fst kv)),
                        recursive_translate_with str_lower translation_map
                          casing (snd kv)))
                    (pre ++ (k, v) :: post)))
              (apply_casing casing (translate_with str_lower translation_map k))
            = Some (recursive_translate_with str_lower translation_map casing v)).
  { rewrite map_app. cbn [map fst snd]. apply insert_all_last.
    unfold dict_keys. rewrite map_map. cbn [fst].
    rewrite in_map_iff. intros (kv & Hkv & Hin).
    rewrite Forall_forall in Hlast. exact (Hlast kv Hin Hkv). }
  split; [exact Hget | split].
  - apply entries_under_unique; [apply dict_of_items_NoDup|].
    apply dict_get_In in Hget. unfold dict_keys. apply in_map_iff.
    eexists. split; [|exact Hget]. reflexivity.
  - unfold dict_of_items.
    rewrite <- (length_map
                  (fun kv =>
                     (apply_casing casing
                        (translate_with str_lower translation_map (fst kv)),
                      recursive_translate_with str_lower translation_map casing
                        (snd kv)))
                  (pre ++ (k, v) :: post)).
    apply (insert_all_length _ []).
Qed.

Lemma rename_keys_collision_last_wins_witness :
  exists d',
    recursive_translate_with PyStr.lower Sample.translation_map None
      (VDict [("cost", VStr "1"); ("Price", VStr "2"); ("date", VStr "d")])
    = VDict d'
    /\ dict_get d' "cost" = Some (VStr "2").
Proof.
  destruct (rename_keys_collision_last_wins PyStr.lower
              Sample.translation_map None
              [("cost", VStr "1")] [("date", VStr "d")] "Price" (VStr "2"))
    as (d' & Hd & Hget & _).
  - repeat constructor. discriminate.
  - exists d'. split; [exact Hd | exact Hget].
Defined.

Lemma lower_char_idempotent (c : ascii) :
  PyStr.lower_char (PyStr.lower_char c) = PyStr.lower_char c.
Proof.
  destruct c as [[] [] [] [] [] [] [] []]; reflexivity.
Qed.

Lemma lower_idempotent (s : string) : PyStr.lower (PyStr.lower s) = PyStr.lower s.
Proof.
  induction s as [|c r IH]; [reflexivity|].
  simpl. now rewrite lower_char_idempotent, IH.
Qed.

Lemma dict_get_skip {V : Type} (d1 d2 : dict V) (m k : string) (x : V) :
  k <> m -> dict_get (d1 ++ (m, x) :: d2) k = dict_get (d1 ++ d2) k.
Proof.
  intros Hne. induction d1 as [|[k' v'] r IH]; simpl.
  - destruct (String.eqb_spec m k); congruence.
  - now rewrite IH.
Qed.

Lemma recursive_translate_with_same_map (str_lower : string -> string)
  (tm tm' : dict string) (casing : option (string -> string)) (v : value) :
  (forall k, translate_with str_lower tm k = translate_with str_lower tm' k) ->
  recursive_translate_with str_lower tm casing v
  = recursive_translate_with str_lower tm' casing v.
Proof.
  intros Hsame.
  induction v as [s | d IH | l IH] using value_ind;
    cbn [recursive_translate_with].
  - reflexivity.
  - apply f_equal. apply f_equal.
    induction d as [|[k x] r IHr]; [reflexivity|].
    inversion IH as [|? ? Hx Hr]; subst.
    cbn [map fst snd] in *. rewrite (Hsame k), Hx, (IHr Hr). reflexivity.
  - apply f_equal. induction l as [|x r IHr]; [reflexivity|].
    inversion IH as [|? ? Hx Hr]; subst.
    cbn [map]. rewrite Hx, (IHr Hr). reflexivity.
Qed.

(** X10.  The map is looked up with [k.lower()] only: an entry of the
    translation map whose key is the lowercase form of no string is never
    used, and the renamer works as if it were not there.  With the ASCII
    [PyStr.lower] this is every key with an upper-case ASCII letter. *)
Theorem rename_keys_ignores_cased_map_keys (str_lower : string -> string)
  (tm1 tm2 : dict string)
  (m x : string) (casing : option (string -> string))
  (parsed_data : dict value)
  (Hcased : forall k, str_lower k <> m) :
  rename_keys_with str_lower (tm1 ++ (m, x) :: tm2) casing parsed_data
  = rename_keys_with str_lower (tm1 ++ tm2) casing parsed_data.
Proof.
  unfold rename_keys_with. apply update_parents_ext. intros v.
  apply recursive_translate_with_same_map. intros k. unfold translate_with.
  rewrite dict_get_skip; [reflexivity | apply Hcased].
Qed.

Lemma rename_keys_ignores_cased_map_keys_witness :
  rename_keys_with PyStr.lower [("Price", "cost")] None
    [("values", VDict [("Price", VStr "1")])]
  = rename_keys_with PyStr.lower [] None
      [("values", VDict [("Price", VStr "1")])].
Proof.
  apply (rename_keys_ignores_cased_map_keys PyStr.lower [] [] "Price" "cost" None).
  intros k H. assert (H2 := lower_idempotent k).
  rewrite H in H2. vm_compute in H2. discriminate H2.
Defined.

(** ** Key flattener: when it changes nothing, when it raises, when it returns *)

Lemma dict_pop_None {V : Type} (d : dict V) (k : string) :
  ~ In k (dict_keys d) -> dict_pop d k = None.
Proof.
  induction d as [|[k' v'] r IH]; simpl; intros H; [reflexivity|].
  destruct (String.eqb_spec k' k) as [->|Hne]; [tauto|].
  rewrite IH; tauto.
Qed.

Lemma dict_pop_get {V : Type} (d : dict V) (k : string) (x : V) (d' : dict V) :
  dict_pop d k = Some (x, d') -> dict_get d k = Some x.
Proof.
  revert d'. induction d as [|[k' v'] r IH]; simpl; intros d'; [discriminate|].
  destruct (String.eqb k' k).
  - intros H. now injection H as -> _.
  - destruct (dict_pop r k) as [[y r']|]; [|discriminate].
    intros H. injection H as <- _. now apply (IH r').
Qed.

Lemma parse_items_untouched (nested_key value_key : string)
  (rp : value -> value * outcome value) (items : list (string * value)) :
  Forall
    (fun kv =>
       pop_name nested_key (snd kv) = None
       /\ rp (snd kv) = (snd kv, Done (snd kv))) items ->
  forall new_data,
    parse_items nested_key value_key rp items new_data
    = (items, Done (insert_all items new_data)).
Proof.
  induction 1 as [|[k v] rest [Hpop Hrp] _ IH]; intros new_data; [reflexivity|].
  cbn [parse_items]. cbn [snd] in Hpop, Hrp. rewrite Hpop, Hrp, IH. reflexivity.
Qed.

Lemma parse_list_untouched (rp : value -> value * outcome value) (l : list value) :
  Forall (fun x => rp x = (x, Done x)) l -> parse_list rp l = (l, Done l).
Proof.
  induction 1 as [|x rest Hrp _ IH]; [reflexivity|].
  cbn [parse_list]. rewrite Hrp, IH. reflexivity.
Qed.

Lemma pop_name_absent (nested_key : string) (v : value) :
  ~ In nested_key (all_keys v) -> pop_name nested_key v = None.
Proof.
  destruct v as [s | d | l]; try reflexivity.
  intros H. apply dict_pop_None. intros Hin. apply H.
  unfold dict_keys in Hin. apply in_map_iff in Hin.
  destruct Hin as ([k x] & <- & Hkx). simpl.
  apply in_flat_map. exists (k, x). split; [exact Hkx | now left].
Qed.

Lemma recursive_parse_absent (nested_key value_key : string) (v : value) :
  unique_keys v -> ~ In nested_key (all_keys v) ->
  recursive_parse nested_key value_key v = (v, Done v).
Proof.
  induction v as [s | d IH | l IH] using value_ind; intros Hu Habs.
  - reflexivity.
  - inversion Hu as [| ? Hnd Hud |]; subst.
    cbn [recursive_parse]. rewrite parse_items_untouched.
    + cbv beta iota. cbn [outcome_map].
      rewrite (insert_all_fresh _ d []) by exact Hnd. reflexivity.
    + rewrite Forall_forall in *. intros [k x] Hkx. cbn [snd].
      assert (Hx : ~ In nested_key (all_keys x)).
      { intros Hin. apply Habs. simpl. apply in_flat_map.
        exists (k, x). split; [exact Hkx | now right]. }
      split; [now apply pop_name_absent|].
      exact (IH (k, x) Hkx (Hud (k, x) Hkx) Hx).
  - inversion Hu as [| | ? Hul]; subst.
    cbn [recursive_parse]. rewrite parse_list_untouched; [reflexivity|].
    rewrite Forall_forall in *. intros x Hx.
    apply (IH x Hx (Hul x Hx)).
    intros Hin. apply Habs. simpl. apply in_flat_map. now exists x.
Qed.

(** X11.  When [nested_key] is a key of no dict of the working structure,
    the flattener returns and changes nothing. *)
Theorem flatten_absent_noop (nested_key value_key : string)
  (parsed_data : dict value)
  (Hdicts : Forall (fun entry => unique_keys (snd entry)) parsed_data)
  (Habsent :
     ~ In nested_key (flat_map (fun entry => all_keys (snd entry)) parsed_data)) :
  flatten_nested_keys nested_key value_key parsed_data = (parsed_data, Done tt).
Proof.
  unfold flatten_nested_keys.
  induction parsed_data as [|[p v] r IH]; [reflexivity|].
  inversion Hdicts as [|? ? Hv Hr]; subst. simpl in Hv, Habsent.
  cbn [flatten_parents]. rewrite recursive_parse_absent.
  - rewrite IH; [reflexivity | exact Hr |].
    intros Hin. apply Habsent. apply in_or_app. now right.
  - exact Hv.
  - intros Hin. apply Habsent. apply in_or_app. now left.
Qed.

Lemma flatten_absent_noop_witness :
  flatten_nested_keys "Title" "Value"
    [("values", VDict [("extra", VDict [("Name", VStr "Special Offer");
                                        ("Value", VStr "50% Off")])])]
  = ([("values", VDict [("extra", VDict [("Name", VStr "Special Offer");
                                         ("Value", VStr "50% Off")])])],
     Done tt).
Proof.
  apply flatten_absent_noop.
  - repeat constructor; simpl; intuition discriminate.
  - simpl. intuition discriminate.
Defined.

(** A loop that reaches an entry whose name is not a string raises, if it
    has not raised before; the entries behind that one are left alone. *)
Lemma parse_items_raises (nested_key value_key : string)
  (rp : value -> value * outcome value) (k : string) (dv remaining : dict value)
  (name : value) (post : list (string * value)) :
  dict_pop dv nested_key = Some (name, remaining) ->
  (forall s, name <> VStr s) ->
  forall pre new_data,
    snd (parse_items nested_key value_key rp (pre ++ (k, VDict dv) :: post) new_data)
    = TypeError
    /\ exists changed,
        fst (parse_items nested_key value_key rp
               (pre ++ (k, VDict dv) :: post) new_data)
        = changed ++ post
        /\ List.length changed = S (List.length pre).
Proof.
  intros Hpop Hname pre.
  induction pre as [|[k0 v0] r IH]; intros new_data.
  - cbn [app parse_items pop_name]. rewrite Hpop.
    destruct name as [s | dn | ln]; [now elim (Hname s) | |];
      (split; [reflexivity | now exists [(k, VDict remaining)]]).
  - cbn [app parse_items].
    destruct (pop_name nested_key v0) as [[[s | dn | ln] dv0]|].
    + destruct (IH (dict_set new_data s (promoted value_key dv0)))
        as (Hsnd & changed & Hfst & Hlen).
      destruct (parse_items nested_key value_key rp
                  (r ++ (k, VDict dv) :: post)
                  (dict_set new_data s (promoted value_key dv0))) as [rest' o].
      cbn [fst snd] in *. split; [exact Hsnd|].
      exists ((k0, VDict dv0) :: changed). rewrite Hfst. simpl. now rewrite Hlen.
    + split; [reflexivity|].
      exists ((k0, VDict dv0) :: r ++ [(k, VDict dv)]). cbn [fst]. split.
      * simpl. now rewrite <- app_assoc.
      * simpl. rewrite length_app. simpl. lia.
    + split; [reflexivity|].
      exists ((k0, VDict dv0) :: r ++ [(k, VDict dv)]). cbn [fst]. split.
      * simpl. now rewrite <- app_assoc.
      * simpl. rewrite length_app. simpl. lia.
    + destruct (rp v0) as [v' [y|]].
      * destruct (IH (dict_set new_data k0 y)) as (Hsnd & changed & Hfst & Hlen).
        destruct (parse_items nested_key value_key rp
                    (r ++ (k, VDict dv) :: post) (dict_set new_data k0 y))
          as [rest' o].
        cbn [fst snd] in *. split; [exact Hsnd|].
        exists ((k0, v') :: changed). rewrite Hfst. simpl. now rewrite Hlen.
      * split; [reflexivity|].
        exists ((k0, v') :: r ++ [(k, VDict dv)]). cbn [fst]. split.
        -- simpl. now rewrite <- app_assoc.
        -- simpl. rewrite length_app. simpl. lia.
Qed.

Lemma flatten_parents_raises (nested_key value_key parent : string) (v : value)
  (after : dict value) :
  snd (recursive_parse nested_key value_key v) = TypeError ->
  forall before,
    snd (flatten_parents nested_key value_key (before ++ (parent, v) :: after))
    = TypeError
    /\ exists changed,
        fst (flatten_parents nested_key value_key
               (before ++ (parent, v) :: after))
        = changed ++ after
        /\ List.length changed = S (List.length before).
Proof.
  intros Hraise before.
  induction before as [|[p0 v0] r IH].
  - cbn [app flatten_parents].
    destruct (recursive_parse nested_key value_key v) as [v' [y|]];
      [discriminate|].
    split; [reflexivity | now exists [(parent, v')]].
  - cbn [app flatten_parents].
    destruct (recursive_parse nested_key value_key v0) as [v0' [y|]].
    + destruct IH as (Hsnd & changed & Hfst & Hlen).
      destruct (flatten_parents nested_key value_key (r ++ (parent, v) :: after))
        as [rest' o].
      cbn [fst snd] in *. split; [exact Hsnd|].
      exists ((p0, y) :: changed). rewrite Hfst. simpl. now rewrite Hlen.
    + split; [reflexivity|].
      exists ((p0, v0') :: r ++ [(parent, v)]). cbn [fst]. split.
      * simpl. now rewrite <- app_assoc.
      * simpl. rewrite length_app. simpl. lia.
Qed.

(** X12.  When some entry of the dict of a parent holds [nested_key] with a
    value that is not a string (a dict or a list), [flatten_nested_keys]
    raises [TypeError]; the parents behind that one are left as they were.
    The call is not undone: when the entry is the first of the first parent,
    the working structure is left with the name popped off that entry. *)
Theorem flatten_raises_on_unhashable_name (nested_key value_key parent k : string)
  (before after : dict value) (pre post : list (string * value))
  (dv remaining : dict value) (name : value)
  (Hname : dict_pop dv nested_key = Some (name, remaining))
  (Hunhashable : forall s, name <> VStr s) :
  snd (flatten_nested_keys nested_key value_key
         (before ++ (parent, VDict (pre ++ (k, VDict dv) :: post)) :: after))
  = TypeError
  /\ (exists changed,
         fst (flatten_nested_keys nested_key value_key
                (before ++ (parent, VDict (pre ++ (k, VDict dv) :: post)) :: after))
         = changed ++ after
         /\ List.length changed = S (List.length before))
  /\ fst (flatten_nested_keys nested_key value_key
            ((parent, VDict ((k, VDict dv) :: post)) :: after))
     = (parent, VDict ((k, VDict remaining) :: post)) :: after.
Proof.
  unfold flatten_nested_keys.
  assert (Hraise : forall pre',
             snd (recursive_parse nested_key value_key
                    (VDict (pre' ++ (k, VDict dv) :: post))) = TypeError).
  { intros pre'. cbn [recursive_parse].
    destruct (parse_items_raises nested_key value_key
                (recursive_parse nested_key value_key) k dv remaining name post
                Hname Hunhashable pre' []) as [Hsnd _].
    destruct (parse_items nested_key value_key
                (recursive_parse nested_key value_key)
                (pre' ++ (k, VDict dv) :: post) []) as [d' o].
    cbn [snd] in *. now rewrite Hsnd. }
  split; [|split].
  - apply flatten_parents_raises, Hraise.
  - apply flatten_parents_raises, Hraise.
  - cbn [flatten_parents recursive_parse parse_items pop_name].
    rewrite Hname.
    destruct name as [s | dn | ln]; [now elim (Hunhashable s) | |]; reflexivity.
Qed.

Lemma flatten_raises_on_unhashable_name_witness :
  snd (flatten_nested_keys_default
         [("header", VDict [("ntitle", VStr "t")]);
          ("values",
            VDict [("price", VStr "100");
                   ("item", VDict [("Name", VDict [("first", VStr "a")]);
                                   ("Value", VStr "v")])])])
  = TypeError.
Proof.
  refine (proj1 (flatten_raises_on_unhashable_name "Name" "Value" "values" "item"
                   [("header", VDict [("ntitle", VStr "t")])] []
                   [("price", VStr "100")] []
                   [("Name", VDict [("first", VStr "a")]); ("Value", VStr "v")]
                   [("Value", VStr "v")] (VDict [("first", VStr "a")]) _ _)).
  - reflexivity.
  - discriminate.
Defined.

Lemma parse_items_returns (nested_key value_key : string)
  (rp : value -> value * outcome value) (items : list (string * value)) :
  Forall
    (fun kv =>
       string_names nested_key (snd kv)
       /\ exists y, snd (rp (snd kv)) = Done y) items ->
  forall new_data,
  exists nd, snd (parse_items nested_key value_key rp items new_data) = Done nd.
Proof.
  induction 1 as [|[k v] rest [Hsn [y Hy]] _ IH]; intros new_data.
  - now exists new_data.
  - cbn [parse_items]. cbn [snd] in Hsn, Hy.
    destruct (pop_name nested_key v) as [[name dv]|] eqn:Hpop.
    + assert (Hstr : exists s, name = VStr s).
      { destruct v as [s | d | l]; simpl in Hpop; try discriminate.
        inversion Hsn as [| ? Hd _ |]; subst.
        apply dict_pop_get in Hpop. now apply Hd. }
      destruct Hstr as [s ->].
      destruct (IH (dict_set new_data s (promoted value_key dv))) as [nd Hnd].
      destruct (parse_items nested_key value_key rp rest
                  (dict_set new_data s (promoted value_key dv))) as [rest' o].
      now exists nd.
    + destruct (rp v) as [v' [y'|]]; [|discriminate].
      destruct (IH (dict_set new_data k y')) as [nd Hnd].
      destruct (parse_items nested_key value_key rp rest
                  (dict_set new_data k y')) as [rest' o].
      now exists nd.
Qed.

Lemma parse_list_returns (rp : value -> value * outcome value) (l : list value) :
  Forall (fun x => exists y, snd (rp x) = Done y) l ->
  exists ys, snd (parse_list rp l) = Done ys.
Proof.
  induction 1 as [|x rest [y Hy] _ [ys IH]].
  - now exists [].
  - cbn [parse_list]. destruct (rp x) as [x' [y'|]]; [|discriminate].
    destruct (parse_list rp rest) as [rest' o]. cbn [snd] in *.
    subst o. now exists (y' :: ys).
Qed.

Lemma recursive_parse_returns (nested_key value_key : string) (v : value) :
  string_names nested_key v ->
  exists y, snd (recursive_parse nested_key value_key v) = Done y.
Proof.
  induction v as [s | d IH | l IH] using value_ind; intros Hsn.
  - now exists (VStr s).
  - inversion Hsn as [| ? _ Hd |]; subst. cbn [recursive_parse].
    destruct (parse_items_returns nested_key value_key
                (recursive_parse nested_key value_key) d) with (new_data := @nil (string * value))
      as [nd Hnd].
    + rewrite Forall_forall in *. intros kv Hkv.
      split; [exact (Hd kv Hkv) | exact (IH kv Hkv (Hd kv Hkv))].
    + destruct (parse_items nested_key value_key
                  (recursive_parse nested_key value_key) d []) as [d' o].
      cbn [snd] in *. subst o. now exists (VDict nd).
  - inversion Hsn as [| | ? Hl]; subst. cbn [recursive_parse].
    destruct (parse_list_returns (recursive_parse nested_key value_key) l)
      as [ys Hys].
    + rewrite Forall_forall in *. intros x Hx. exact (IH x Hx (Hl x Hx)).
    + destruct (parse_list (recursive_parse nested_key value_key) l) as [l' o].
      cbn [snd] in *. subst o. now exists (VList ys).
Qed.

(** X13.  When, wherever [nested_key] is a key, its value is a string, the
    flattener returns: no call raises. *)
Theorem flatten_returns_on_string_names (nested_key value_key : string)
  (parsed_data : dict value)
  (Hnames : Forall (fun entry => string_names nested_key (snd entry)) parsed_data) :
  snd (flatten_nested_keys nested_key value_key parsed_data) = Done tt.
Proof.
  unfold flatten_nested_keys.
  induction Hnames as [|[p v] r Hv _ IH]; [reflexivity|].
  cbn [flatten_parents]. cbn [snd] in Hv.
  destruct (recursive_parse_returns nested_key value_key v Hv) as [y Hy].
  destruct (recursive_parse nested_key value_key v) as [v' [y'|]];
    [|discriminate].
  destruct (flatten_parents nested_key value_key r) as [r' o].
  cbn [snd] in *. exact IH.
Qed.

Lemma flatten_returns_on_string_names_witness :
  snd (flatten_nested_keys "Name" "Value"
         [("values", VDict [("extra", VDict [("Name", VStr "Special Offer");
                                             ("Value", VStr "50% Off")])])])
  = Done tt.
Proof.
  apply flatten_returns_on_string_names.
  repeat constructor; simpl; intros name H;
    try discriminate; injection H as <-; eexists; reflexivity.
Defined.

(** ** Invariants of the pipeline: unique keys, no lists *)

Lemma dict_pop_NoDup (d : dict value) (k : string) (x : value) (d' : dict value) :
  dict_pop d k = Some (x, d') -> NoDup (dict_keys d) -> NoDup (dict_keys d').
Proof.
  revert d'. induction d as [|[k0 v0] r IH]; simpl; intros d'; [discriminate|].
  destruct (String.eqb k0 k).
  - intros H Hnd. injection H as _ <-. now inversion Hnd.
  - destruct (dict_pop r k) as [[y r']|] eqn:E; [|discriminate].
    intros H Hnd. injection H as <- <-.
    inversion Hnd as [|? ? Hnot Hr]; subst. simpl. constructor.
    + intros Hin. apply Hnot. unfold dict_keys in *.
      apply in_map_iff in Hin. destruct Hin as (kv & Hk & Hkv).
      apply in_map_iff. exists kv. split; [exact Hk|].
      exact (dict_pop_In r k y r' E kv Hkv).
    + exact (IH r' eq_refl Hr).
Qed.

Lemma pop_name_unique (nested_key : string) (v name : value) (dv : dict value) :
  pop_name nested_key v = Some (name, dv) ->
  unique_keys v -> unique_keys (VDict dv).
Proof.
  destruct v as [s | d | l]; simpl; try discriminate.
  intros Hpop Hu. inversion Hu as [| ? Hnd Hd |]; subst.
  constructor; [exact (dict_pop_NoDup d nested_key name dv Hpop Hnd)|].
  rewrite Forall_forall in *. intros kv Hkv.
  exact (Hd kv (dict_pop_In d nested_key name dv Hpop kv Hkv)).
Qed.

Lemma pop_name_list_free (nested_key : string) (v name : value) (dv : dict value) :
  pop_name nested_key v = Some (name, dv) ->
  list_free v -> list_free (VDict dv).
Proof.
  destruct v as [s | d | l]; simpl; try discriminate.
  intros Hpop Hl. inversion Hl as [| ? Hd]; subst.
  constructor. rewrite Forall_forall in *. intros kv Hkv.
  exact (Hd kv (dict_pop_In d nested_key name dv Hpop kv Hkv)).
Qed.

Lemma promoted_unique (value_key : string) (dv : dict value) :
  unique_keys (VDict dv) -> unique_keys (promoted value_key dv).
Proof.
  intros Hu. destruct (promoted_cases value_key dv) as [-> | H]; [exact Hu|].
  inversion Hu as [| ? _ Hd |]; subst. rewrite H in Hd.
  inversion Hd as [|? ? Hx _]; subst. exact Hx.
Qed.

Lemma promoted_list_free (value_key : string) (dv : dict value) :
  list_free (VDict dv) -> list_free (promoted value_key dv).
Proof.
  intros Hl. destruct (promoted_cases value_key dv) as [-> | H]; [exact Hl|].
  inversion Hl as [| ? Hd]; subst. rewrite H in Hd.
  inversion Hd as [|? ? Hx _]; subst. exact Hx.
Qed.

Lemma dict_set_unique (d : dict value) (k : string) (v : value) :
  unique_keys (VDict d) -> unique_keys v -> unique_keys (VDict (dict_set d k v)).
Proof.
  intros Hd Hv. inversion Hd as [| ? Hnd Hall |]; subst.
  constructor; [now apply dict_set_NoDup|].
  rewrite Forall_forall in *. intros kv Hkv.
  apply dict_set_In in Hkv. destruct Hkv as [-> | Hkv]; [exact Hv | now apply Hall].
Qed.

Lemma dict_set_list_free (d : dict value) (k : string) (v : value) :
  list_free (VDict d) -> list_free v -> list_free (VDict (dict_set d k v)).
Proof.
  intros Hd Hv. inversion Hd as [| ? Hall]; subst.
  constructor. rewrite Forall_forall in *. intros kv Hkv.
  apply dict_set_In in Hkv. destruct Hkv as [-> | Hkv]; [exact Hv | now apply Hall].
Qed.

Lemma parse_items_unique (nested_key value_key : string)
  (rp : value -> value * outcome value) (items : list (string * value)) :
  Forall
    (fun kv =>
       unique_keys (snd kv)
       /\ unique_keys (fst (rp (snd kv)))
       /\ forall y, snd (rp (snd kv)) = Done y -> unique_keys y) items ->
  forall new_data,
    unique_keys (VDict new_data) ->
    dict_keys (fst (parse_items nested_key value_key rp items new_data))
    = dict_keys items
    /\ Forall (fun kv => unique_keys (snd kv))
         (fst (parse_items nested_key value_key rp items new_data))
    /\ forall nd,
        snd (parse_items nested_key value_key rp items new_data) = Done nd ->
        unique_keys (VDict nd).
Proof.
  induction 1 as [|[k v] rest (Hv & Hleft & Hres) Hrest IH]; intros new_data Hnd.
  - repeat split; [constructor|]. intros nd H. now injection H as <-.
  - cbn [parse_items]. cbn [snd] in Hv, Hleft, Hres.
    assert (Hrest' : Forall (fun kv => unique_keys (snd kv)) rest).
    { revert Hrest. apply Forall_impl. tauto. }
    destruct (pop_name nested_key v) as [[name dv]|] eqn:Hpop.
    + apply pop_name_unique in Hpop; [|exact Hv].
      destruct name as [s | dn | ln].
      * destruct (IH (dict_set new_data s (promoted value_key dv)))
          as (Hk & Hall & Hdone).
        { apply dict_set_unique; [exact Hnd | now apply promoted_unique]. }
        destruct (parse_items nested_key value_key rp rest
                    (dict_set new_data s (promoted value_key dv))) as [rest' o].
        cbn [fst snd] in *. repeat split.
        -- simpl. now rewrite Hk.
        -- now constructor.
        -- exact Hdone.
      * cbn [fst snd]. repeat split; [now constructor | discriminate].
      * cbn [fst snd]. repeat split; [now constructor | discriminate].
    + destruct (rp v) as [v' [y|]]; cbn [fst snd] in *.
      * destruct (IH (dict_set new_data k y)) as (Hk & Hall & Hdone).
        { apply dict_set_unique; [exact Hnd | now apply Hres]. }
        destruct (parse_items nested_key value_key rp rest (dict_set new_data k y))
          as [rest' o].
        cbn [fst snd] in *. repeat split.
        -- simpl. now rewrite Hk.
        -- now constructor.
        -- exact Hdone.
      * repeat split; [now constructor | discriminate].
Qed.

Lemma parse_list_unique (rp : value -> value * outcome value) (l : list value) :
  Forall
    (fun x =>
       unique_keys (fst (rp x))
       /\ forall y, snd (rp x) = Done y -> unique_keys y) l ->
  Forall unique_keys l ->
  Forall unique_keys (fst (parse_list rp l))
  /\ forall ys, snd (parse_list rp l) = Done ys -> Forall unique_keys ys.
Proof.
  induction 1 as [|x rest [Hleft Hres] _ IH]; intros Hl.
  - split; [constructor|]. intros ys H. injection H as <-. constructor.
  - inversion Hl as [|? ? Hx Hr]; subst. cbn [parse_list].
    destruct (rp x) as [x' [y|]]; cbn [fst snd] in *.
    + destruct (IH Hr) as [IH1 IH2].
      destruct (parse_list rp rest) as [rest' o]. cbn [fst snd] in *.
      split; [now constructor|].
      intros ys Hys. destruct o as [ys'|]; [|discriminate].
      injection Hys as <-. constructor; [now apply Hres | now apply IH2].
    + split; [now constructor | discriminate].
Qed.

Lemma recursive_parse_unique (nested_key value_key : string) (v : value) :
  unique_keys v ->
  unique_keys (fst (recursive_parse nested_key value_key v))
  /\ forall y, snd (recursive_parse nested_key value_key v) = Done y ->
               unique_keys y.
Proof.
  induction v as [s | d IH | l IH] using value_ind; intros Hu.
  - split; [exact Hu|]. intros y H. now injection H as <-.
  - inversion Hu as [| ? Hnd Hd |]; subst. cbn [recursive_parse].
    destruct (parse_items_unique nested_key value_key
                (recursive_parse nested_key value_key) d)
      with (new_data := @nil (string * value)) as (Hk & Hall & Hdone).
    + rewrite Forall_forall in *. intros kv Hkv.
      destruct (IH kv Hkv (Hd kv Hkv)) as [H1 H2].
      split; [exact (Hd kv Hkv) | split; [exact H1 | exact H2]].
    + constructor; constructor.
    + destruct (parse_items nested_key value_key
                  (recursive_parse nested_key value_key) d []) as [d' o].
      cbn [fst snd] in *. split.
      * constructor; [now rewrite Hk | exact Hall].
      * intros y Hy. destruct o as [nd|]; [|discriminate].
        injection Hy as <-. now apply Hdone.
  - inversion Hu as [| | ? Hl]; subst. cbn [recursive_parse].
    destruct (parse_list_unique (recursive_parse nested_key value_key) l)
      as [H1 H2].
    + rewrite Forall_forall in *. intros x Hx. exact (IH x Hx (Hl x Hx)).
    + exact Hl.
    + destruct (parse_list (recursive_parse nested_key value_key) l) as [l' o].
      cbn [fst snd] in *. split; [now constructor|].
      intros y Hy. destruct o as [ys|]; [|discriminate].
      injection Hy as <-. constructor. now apply H2.
Qed.

Lemma recursive_translate_unique (translation_map : dict string)
  (casing : option (string -> string)) (v : value) :
  unique_keys (recursive_translate translation_map casing v).
Proof.
  induction v as [s | d IH | l IH] using value_ind; simpl.
  - constructor.
  - constructor; [apply dict_of_items_NoDup|].
    apply Forall_forall. intros kv Hkv. apply translated_entries in Hkv.
    destruct Hkv as (k & x & Hin & _ & Hsnd). rewrite Hsnd.
    rewrite Forall_forall in IH. exact (IH _ Hin).
  - constructor. apply Forall_forall. intros y Hy.
    apply in_map_iff in Hy. destruct Hy as (x & <- & Hx).
    rewrite Forall_forall in IH. exact (IH x Hx).
Qed.

Lemma flatten_parents_unique (nested_key value_key : string)
  (parsed_data : dict value) :
  Forall (fun entry => unique_keys (snd entry)) parsed_data ->
  Forall (fun entry => unique_keys (snd entry))
    (fst (flatten_parents nested_key value_key parsed_data)).
Proof.
  induction 1 as [|[p v] r Hv Hr IH]; [constructor|].
  cbn [flatten_parents]. cbn [snd] in Hv.
  destruct (recursive_parse_unique nested_key value_key v Hv) as [H1 H2].
  destruct (recursive_parse nested_key value_key v) as [v' [y|]];
    cbn [fst snd] in *.
  - destruct (flatten_parents nested_key value_key r) as [r' o].
    cbn [fst] in *. constructor; [now apply H2 | exact IH].
  - now constructor.
Qed.

(** X14.  The dict invariant goes through the pipeline: when every dict of
    the working structure has unique keys, so has every dict after
    [remove_keys], after [flatten_nested_keys] (returned or raised) and
    after [rename_keys]. *)
Theorem transforms_keep_unique_keys (parsed_data : dict value)
  (keys_to_remove : list string) (nested_key value_key : string)
  (translation_map : dict string) (casing : option (string -> string))
  (Hdicts : Forall (fun entry => unique_keys (snd entry)) parsed_data) :
  Forall (fun entry => unique_keys (snd entry))
    (remove_keys keys_to_remove parsed_data)
  /\ Forall (fun entry => unique_keys (snd entry))
       (fst (flatten_nested_keys nested_key value_key parsed_data))
  /\ Forall (fun entry => unique_keys (snd entry))
       (rename_keys translation_map casing parsed_data).
Proof.
  split; [|split].
  - unfold remove_keys, update_parents. apply Forall_forall. intros e He.
    apply in_map_iff in He. destruct He as ([p v] & <- & _).
    exact (proj1 (recursive_remove_clean keys_to_remove v)).
  - now apply flatten_parents_unique.
  - unfold rename_keys, update_parents. apply Forall_forall. intros e He.
    apply in_map_iff in He. destruct He as ([p v] & <- & _).
    apply recursive_translate_unique.
Qed.

Lemma transforms_keep_unique_keys_witness :
  Forall (fun entry => unique_keys (snd entry))
    (fst (flatten_nested_keys "Name" "Value" (XMLParser_init Sample.root None))).
Proof.
  exact (proj1 (proj2 (transforms_keep_unique_keys
                         (XMLParser_init Sample.root None) [] "Name" "Value" [] None
                         (extracted_dicts_unique Sample.root ["header"; "values"])))).
Defined.

Lemma recursive_remove_list_free (keys : list string) (v : value) :
  list_free v -> list_free (recursive_remove keys v).
Proof.
  induction v as [s | d IH | l IH] using value_ind; simpl; intros Hl.
  - exact Hl.
  - inversion Hl as [| ? Hd]; subst. constructor.
    apply Forall_forall. intros kv Hkv.
    apply dict_of_items_In, kept_entries in Hkv.
    destruct Hkv as (x & Hx & _ & ->).
    rewrite Forall_forall in *. exact (IH _ Hx (Hd _ Hx)).
  - inversion Hl.
Qed.

Lemma recursive_translate_list_free (translation_map : dict string)
  (casing : option (string -> string)) (v : value) :
  list_free v -> list_free (recursive_translate translation_map casing v).
Proof.
  induction v as [s | d IH | l IH] using value_ind; simpl; intros Hl.
  - exact Hl.
  - inversion Hl as [| ? Hd]; subst. constructor.
    apply Forall_forall. intros kv Hkv. apply translated_entries in Hkv.
    destruct Hkv as (k & x & Hin & _ & ->).
    rewrite Forall_forall in *. exact (IH _ Hin (Hd _ Hin)).
  - inversion Hl.
Qed.

Lemma parse_items_list_free (nested_key value_key : string)
  (rp : value -> value * outcome value) (items : list (string * value)) :
  Forall
    (fun kv =>
       list_free (snd kv)
       /\ list_free (fst (rp (snd kv)))
       /\ forall y, snd (rp (snd kv)) = Done y -> list_free y) items ->
  forall new_data,
    list_free (VDict new_data) ->
    Forall (fun kv => list_free (snd kv))
      (fst (parse_items nested_key value_key rp items new_data))
    /\ forall nd,
        snd (parse_items nested_key value_key rp items new_data) = Done nd ->
        list_free (VDict nd).
Proof.
  induction 1 as [|[k v] rest (Hv & Hleft & Hres) Hrest IH]; intros new_data Hnd.
  - split; [constructor|]. intros nd H. now injection H as <-.
  - cbn [parse_items]. cbn [snd] in Hv, Hleft, Hres.
    assert (Hrest' : Forall (fun kv => list_free (snd kv)) rest).
    { revert Hrest. apply Forall_impl. tauto. }
    destruct (pop_name nested_key v) as [[name dv]|] eqn:Hpop.
    + apply pop_name_list_free in Hpop; [|exact Hv].
      destruct name as [s | dn | ln].
      * destruct (IH (dict_set new_data s (promoted value_key dv)))
          as (Hall & Hdone).
        { apply dict_set_list_free; [exact Hnd | now apply promoted_list_free]. }
        destruct (parse_items nested_key value_key rp rest
                    (dict_set new_data s (promoted value_key dv))) as [rest' o].
        cbn [fst snd] in *. split; [now constructor | exact Hdone].
      * cbn [fst snd]. split; [now constructor | discriminate].
      * cbn [fst snd]. split; [now constructor | discriminate].
    + destruct (rp v) as [v' [y|]]; cbn [fst snd] in *.
      * destruct (IH (dict_set new_data k y)) as (Hall & Hdone).
        { apply dict_set_list_free; [exact Hnd | now apply Hres]. }
        destruct (parse_items nested_key value_key rp rest (dict_set new_data k y))
          as [rest' o].
        cbn [fst snd] in *. split; [now constructor | exact Hdone].
      * split; [now constructor | discriminate].
Qed.

Lemma recursive_parse_list_free (nested_key value_key : string) (v : value) :
  list_free v ->
  list_free (fst (recursive_parse nested_key value_key v))
  /\ forall y, snd (recursive_parse nested_key value_key v) = Done y ->
               list_free y.
Proof.
  induction v as [s | d IH | l IH] using value_ind; intros Hl.
  - split; [exact Hl|]. intros y H. now injection H as <-.
  - inversion Hl as [| ? Hd]; subst. cbn [recursive_parse].
    destruct (parse_items_list_free nested_key value_key
                (recursive_parse nested_key value_key) d)
      with (new_data := @nil (string * value)) as (Hall & Hdone).
    + rewrite Forall_forall in *. intros kv Hkv.
      destruct (IH kv Hkv (Hd kv Hkv)) as [H1 H2].
      split; [exact (Hd kv Hkv) | split; [exact H1 | exact H2]].
    + constructor; constructor.
    + destruct (parse_items nested_key value_key
                  (recursive_parse nested_key value_key) d []) as [d' o].
      cbn [fst snd] in *. split; [now constructor|].
      intros y Hy. destruct o as [nd|]; [|discriminate].
      injection Hy as <-. now apply Hdone.
  - inversion Hl.
Qed.

Lemma flatten_parents_list_free (nested_key value_key : string)
  (parsed_data : dict value) :
  Forall (fun entry => list_free (snd entry)) parsed_data ->
  Forall (fun entry => list_free (snd entry))
    (fst (flatten_parents nested_key value_key parsed_data)).
Proof.
  induction 1 as [|[p v] r Hv Hr IH]; [constructor|].
  cbn [flatten_parents]. cbn [snd] in Hv.
  destruct (recursive_parse_list_free nested_key value_key v Hv) as [H1 H2].
  destruct (recursive_parse nested_key value_key v) as [v' [y|]];
    cbn [fst snd] in *.
  - destruct (flatten_parents nested_key value_key r) as [r' o].
    cbn [fst] in *. constructor; [now apply H2 | exact IH].
  - now constructor.
Qed.

(** X15.  No transform creates a list: a working structure of dicts and
    strings only, as the extractor builds it, is still one after
    [remove_keys], after [flatten_nested_keys] (returned or raised) and after
    [rename_keys]. *)
Theorem transforms_create_no_list (parsed_data : dict value)
  (keys_to_remove : list string) (nested_key value_key : string)
  (translation_map : dict string) (casing : option (string -> string))
  (Hplain : Forall (fun entry => list_free (snd entry)) parsed_data) :
  Forall (fun entry => list_free (snd entry))
    (remove_keys keys_to_remove parsed_data)
  /\ Forall (fun entry => list_free (snd entry))
       (fst (flatten_nested_keys nested_key value_key parsed_data))
  /\ Forall (fun entry => list_free (snd entry))
       (rename_keys translation_map casing parsed_data).
Proof.
  split; [|split].
  - unfold remove_keys, update_parents. rewrite Forall_forall in *.
    intros e He. apply in_map_iff in He. destruct He as ([p v] & <- & Hin).
    apply recursive_remove_list_free. exact (Hplain _ Hin).
  - now apply flatten_parents_list_free.
  - unfold rename_keys, update_parents. rewrite Forall_forall in *.
    intros e He. apply in_map_iff in He. destruct He as ([p v] & <- & Hin).
    apply recursive_translate_list_free. exact (Hplain _ Hin).
Qed.

Lemma extracted_dicts_list_free (root : element) (parent_elements : list string) :
  Forall (fun entry => list_free (snd entry))
    (parse_xml_to_dict root parent_elements).
Proof.
  apply Forall_forall. intros kv Hkv.
  apply extracted_loop_entries in Hkv. destruct Hkv as [[] | (elem & ->)].
  exact (proj2 (parse_element_shape elem)).
Qed.

Lemma transforms_create_no_list_witness :
  Forall (fun entry => list_free (snd entry))
    (rename_keys Sample.translation_map (Some PyStr.capitalize)
       (XMLParser_init Sample.root None)).
Proof.
  exact (proj2 (proj2 (transforms_create_no_list
                         (XMLParser_init Sample.root None) [] "Name" "Value"
                         Sample.translation_map (Some PyStr.capitalize)
                         (extracted_dicts_list_free Sample.root
                            ["header"; "values"])))).
Defined.

(** ** Pretty printer *)

Lemma print_value_dict_app (d1 d2 : list (string * value)) (indent : nat) :
  print_value (VDict (d1 ++ d2)) indent
  = print_value (VDict d1) indent ++ print_value (VDict d2) indent.
Proof. cbn [print_value]. apply flat_map_app. Qed.

Lemma print_value_list_app (l1 l2 : list value) (indent : nat) :
  print_value (VList (l1 ++ l2)) indent
  = print_value (VList l1) indent ++ print_value (VList l2) indent.
Proof. cbn [print_value]. apply flat_map_app. Qed.

Lemma print_value_deeper (v : value) :
  forall indent,
    print_value v (S indent) = map (String tab) (print_value v indent).
Proof.
  induction v as [s | d IH | l IH] using value_ind; intros indent.
  - reflexivity.
  - cbn [print_value].
    induction d as [|[k x] r IHr]; [reflexivity|].
    inversion IH as [|? ? Hx Hr]; subst.
    cbn [flat_map fst snd] in *. rewrite map_app, (IHr Hr).
    f_equal. destruct x as [s | dx | lx]; [reflexivity | |];
      cbn [map]; rewrite (Hx (S indent)); reflexivity.
  - cbn [print_value].
    induction l as [|x r IHr]; [reflexivity|].
    inversion IH as [|? ? Hx Hr]; subst.
    cbn [flat_map]. now rewrite map_app, (IHr Hr), Hx.
Qed.

(** X16.  Printing a value one level deeper puts one more tab in front of
    the string of each [print] call and changes nothing else; so at level
    [n] the string of every call is its string at level 0 behind [n] tabs.
    (A string that holds a newline is still one call.) *)
Theorem print_indent_uniform (parsed_data : dict value) (v : value) (n : nat) :
  print_pretty_dict parsed_data (Some v) (S n)
  = map (String tab) (print_pretty_dict parsed_data (Some v) n)
  /\ print_pretty_dict parsed_data (Some v) n
     = map (String.append (tabs n)) (print_pretty_dict parsed_data (Some v) 0).
Proof.
  cbn [print_pretty_dict]. split; [apply print_value_deeper|].
  induction n as [|n IH].
  - cbn [tabs]. rewrite <- (map_id (print_value v 0)) at 1.
    apply map_ext. reflexivity.
  - rewrite print_value_deeper, IH, map_map. apply map_ext. reflexivity.
Qed.

(** X17.  The printer does not show lists: a list nested in a list prints
    as its items in place, a list of dicts whose keys are all different
    prints as the one dict with the entries of all of them, and an entry
    holding an empty list prints as one holding an empty dict. *)
Theorem print_hides_lists (indent : nat) (pre post l : list value)
  (ds : list (list (string * value))) (k : string)
  (Hdistinct : NoDup (dict_keys (List.concat ds))) :
  print_value (VList (pre ++ VList l :: post)) indent
  = print_value (VList (pre ++ l ++ post)) indent
  /\ print_value (VList (map VDict ds)) indent
     = print_value (VDict (List.concat ds)) indent
  /\ print_value (VDict [(k, VList [])]) indent
     = print_value (VDict [(k, VDict [])]) indent.
Proof.
  split; [|split].
  - rewrite !print_value_list_app.
    change (VList l :: post) with ([VList l] ++ post).
    rewrite print_value_list_app. f_equal. f_equal.
    cbn [print_value flat_map]. now rewrite app_nil_r.
  - clear Hdistinct. induction ds as [|d r IH]; [reflexivity|].
    cbn [map List.concat]. rewrite print_value_dict_app, <- IH.
    change (VDict d :: map VDict r) with ([VDict d] ++ map VDict r).
    rewrite print_value_list_app. f_equal.
    cbn [print_value flat_map]. now rewrite app_nil_r.
  - reflexivity.
Qed.

Lemma print_hides_lists_witness :
  print_value (VList [VDict [("a", VStr "1")]; VDict [("b", VStr "2")]]) 1
  = print_value (VDict [("a", VStr "1"); ("b", VStr "2")]) 1.
Proof.
  refine (proj1 (proj2 (print_hides_lists 1 [] [] []
                          [[("a", VStr "1")]; [("b", VStr "2")]] "k" _))).
  repeat constructor; simpl; intuition discriminate.
Defined.

Lemma print_value_lines (v : value) :
  list_free v ->
  forall indent,
    List.length (print_value v indent)
    = match v with
      | VStr _ => 1
      | _ => List.length (all_keys v)
      end.
Proof.
  induction v as [s | d IH | l IH] using value_ind; intros Hl indent.
  - reflexivity.
  - inversion Hl as [| ? Hd]; subst. cbn [print_value all_keys].
    induction d as [|[k x] r IHr]; [reflexivity|].
    inversion IH as [|? ? Hx Hr]; subst.
    inversion Hd as [|? ? Hlx Hlr]; subst.
    cbn [flat_map fst snd] in *.
    rewrite length_app, (IHr Hr); [|constructor; exact Hlr | exact Hlr].
    cbn [List.length app]. rewrite length_app. f_equal.
    destruct x as [s | dx | lx].
    + reflexivity.
    + cbn [List.length]. now rewrite (Hx Hlx (S indent)).
    + inversion Hlx.
  - inversion Hl.
Qed.

(** X18.  For a working structure of dicts and strings only, each parent
    holding a dict, the printer prints one header line per parent and one
    line per dict key, at any depth. *)
Theorem print_one_line_per_key (parsed_data : dict value) (indent : nat)
  (Hplain : Forall
              (fun entry =>
                 list_free (snd entry) /\ exists d, snd entry = VDict d)
              parsed_data) :
  List.length (print_pretty_dict parsed_data None indent)
  = List.length parsed_data
    + List.length (flat_map (fun entry => all_keys (snd entry)) parsed_data).
Proof.
  cbn [print_pretty_dict].
  induction Hplain as [|[p v] r [Hl [d Hd]] _ IH]; [reflexivity|].
  cbn [flat_map fst snd] in *. subst v.
  cbn [List.length app]. rewrite !length_app, IH.
  rewrite (print_value_lines (VDict d) Hl indent). lia.
Qed.

Lemma print_one_line_per_key_witness :
  List.length
    (print_pretty_dict
       [("values", VDict [("price", VStr "100");
                          ("details", VDict [("currency", VStr "USD")])])]
       None 0)
  = 4.
Proof.
  apply (print_one_line_per_key
           [("values", VDict [("price", VStr "100");
                              ("details", VDict [("currency", VStr "USD")])])]
           0).
  repeat constructor. eexists. reflexivity.
Defined.

(** ** Tree extractor: where keys and leaves come from *)







(** X20.  The requested names are compared with stripped tags: a name that
    still holds a brace group, such as a qualified tag, matches no element
    and is never a key of the result. *)
Theorem extraction_never_matches_qualified_name (root : element)
  (parent_elements : list string) (p : string)
  (Hqualified : settled p = false) :
  dict_get (parse_xml_to_dict root parent_elements) p = None.
Proof.
  unfold parse_xml_to_dict. rewrite extracted_entry.
  assert (Hnone : first_match root p = None).
  { unfold first_match.
    destruct (find _ (iter root)) as [e|] eqn:E; [|reflexivity].
    apply find_some in E. destruct E as [_ He]. apply String.eqb_eq in He.
    rewrite <- He, strip_namespace_settled in Hqualified. discriminate. }
  rewrite Hnone. now destruct (existsb (String.eqb p) parent_elements).
Qed.

Lemma extraction_never_matches_qualified_name_witness :
  dict_get
    (parse_xml_to_dict Sample.root ["{http://example.com}header"; "values"])
    "{http://example.com}header"
  = None.
Proof.
  apply extraction_never_matches_qualified_name. reflexivity.
Defined.

(** ** Key flattener: colliding keys *)

Lemma parse_items_NoDup (nested_key value_key : string)
  (rp : value -> value * outcome value) (items : list (string * value)) :
  forall new_data nd,
    NoDup (dict_keys new_data) ->
    snd (parse_items nested_key value_key rp items new_data) = Done nd ->
    NoDup (dict_keys nd).
Proof.
  induction items as [|[k v] rest IH]; intros new_data nd Hnd.
  - intros H. now injection H as <-.
  - cbn [parse_items].
    destruct (pop_name nested_key v) as [[[s | dn | ln] dv]|];
      try discriminate.
    + specialize (IH (dict_set new_data s (promoted value_key dv)) nd).
      destruct (parse_items nested_key value_key rp rest
                  (dict_set new_data s (promoted value_key dv))) as [rest' o].
      cbn [snd] in *. apply IH. now apply dict_set_NoDup.
    + destruct (rp v) as [v' [y|]]; [|discriminate].
      specialize (IH (dict_set new_data k y) nd).
      destruct (parse_items nested_key value_key rp rest (dict_set new_data k y))
        as [rest' o].
      cbn [snd] in *. apply IH. now apply dict_set_NoDup.
Qed.

(** Entries that produce other keys leave the entry under [s] alone. *)
Lemma parse_items_keeps_key (nested_key value_key s : string)
  (rp : value -> value * outcome value) (post : list (string * value)) :
  Forall (fun kv => produced_key nested_key kv <> Some s) post ->
  forall new_data nd,
    snd (parse_items nested_key value_key rp post new_data) = Done nd ->
    dict_get nd s = dict_get new_data s.
Proof.
  induction 1 as [|[k v] rest Hkey _ IH]; intros new_data nd.
  - intros H. now injection H as <-.
  - cbn [parse_items]. unfold produced_key in Hkey. cbn [fst snd] in Hkey.
    destruct (pop_name nested_key v) as [[[s' | dn | ln] dv]|];
      try discriminate.
    + specialize (IH (dict_set new_data s' (promoted value_key dv)) nd).
      destruct (parse_items nested_key value_key rp rest
                  (dict_set new_data s' (promoted value_key dv))) as [rest' o].
      cbn [snd] in *. intros H. rewrite (IH H).
      apply dict_get_set_other. congruence.
    + destruct (rp v) as [v' [y|]]; [|discriminate].
      specialize (IH (dict_set new_data k y) nd).
      destruct (parse_items nested_key value_key rp rest (dict_set new_data k y))
        as [rest' o].
      cbn [snd] in *. intros H. rewrite (IH H).
      apply dict_get_set_other. congruence.
Qed.

Lemma parse_items_last_producer (nested_key value_key k s : string)
  (rp : value -> value * outcome value) (dv remaining : dict value)
  (post : list (string * value)) :
  dict_pop dv nested_key = Some (VStr s, remaining) ->
  Forall (fun kv => produced_key nested_key kv <> Some s) post ->
  forall pre new_data nd,
    snd (parse_items nested_key value_key rp (pre ++ (k, VDict dv) :: post) new_data)
    = Done nd ->
    dict_get nd s = Some (promoted value_key remaining).
Proof.
  intros Hpop Hpost pre.
  induction pre as [|[k0 v0] r IH]; intros new_data nd.
  - cbn [app parse_items pop_name]. rewrite Hpop.
    destruct (parse_items nested_key value_key rp post
                (dict_set new_data s (promoted value_key remaining)))
      as [rest' o] eqn:E.
    cbn [snd]. intros ->.
    assert (Hsnd : snd (parse_items nested_key value_key rp post
                          (dict_set new_data s (promoted value_key remaining)))
                   = Done nd) by now rewrite E.
    rewrite (parse_items_keeps_key nested_key value_key s rp post Hpost _ _ Hsnd).
    apply dict_get_set_same.
  - cbn [app parse_items].
    destruct (pop_name nested_key v0) as [[[s' | dn | ln] dv0]|];
      try discriminate.
    + specialize (IH (dict_set new_data s' (promoted value_key dv0)) nd).
      destruct (parse_items nested_key value_key rp
                  (r ++ (k, VDict dv) :: post)
                  (dict_set new_data s' (promoted value_key dv0))) as [rest' o].
      exact IH.
    + destruct (rp v0) as [v' [y|]]; [|discriminate].
      specialize (IH (dict_set new_data k0 y) nd).
      destruct (parse_items nested_key value_key rp
                  (r ++ (k, VDict dv) :: post) (dict_set new_data k0 y))
        as [rest' o].
      exact IH.
Qed.

(** X21.  In the flattener the last entry that produces a key wins: when an
    entry is promoted to the name [s] and no later entry of the dict
    produces [s], a returning call leaves exactly one entry under [s], the
    value promoted from that entry, whatever an earlier entry stored under
    [s] as promoted name or as plain key. *)
Theorem flatten_collision_last_wins (nested_key value_key k s : string)
  (pre post : list (string * value)) (dv remaining : dict value) (y : value)
  (Hname : dict_pop dv nested_key = Some (VStr s, remaining))
  (Hlater : Forall (fun kv => produced_key nested_key kv <> Some s) post)
  (Hdone : snd (recursive_parse nested_key value_key
                  (VDict (pre ++ (k, VDict dv) :: post))) = Done y) :
  exists nd,
    y = VDict nd
    /\ dict_get nd s = Some (promoted value_key remaining)
    /\ entries_under nd s = 1.
Proof.
  cbn [recursive_parse] in Hdone.
  destruct (parse_items nested_key value_key
              (recursive_parse nested_key value_key)
              (pre ++ (k, VDict dv) :: post) []) as [d' o] eqn:E.
  cbn [snd] in Hdone. destruct o as [nd|]; [|discriminate].
  injection Hdone as <-. exists nd.
  assert (Hsnd : snd (parse_items nested_key value_key
                        (recursive_parse nested_key value_key)
                        (pre ++ (k, VDict dv) :: post) []) = Done nd)
    by now rewrite E.
  assert (Hget : dict_get nd s = Some (promoted value_key remaining)).
  { exact (parse_items_last_producer nested_key value_key k s _ dv remaining
             post Hname Hlater pre [] nd Hsnd). }
  split; [reflexivity | split; [exact Hget|]].
  apply entries_under_unique.
  - apply (parse_items_NoDup nested_key value_key
             (recursive_parse nested_key value_key)
             (pre ++ (k, VDict dv) :: post) [] nd); [constructor | exact Hsnd].
  - apply dict_get_In in Hget. unfold dict_keys. apply in_map_iff.
    eexists. split; [|exact Hget]. reflexivity.
Qed.

Lemma flatten_collision_last_wins_witness :
  exists nd,
    VDict [("Offer", VStr "second"); ("note", VStr "n")] = VDict nd
    /\ dict_get nd "Offer" = Some (VStr "second").
Proof.
  destruct (flatten_collision_last_wins "Name" "Value" "b" "Offer"
              [("Offer", VStr "plain");
               ("a", VDict [("Name", VStr "Offer"); ("Value", VStr "first")])]
              [("note", VStr "n")]
              [("Name", VStr "Offer"); ("Value", VStr "second")]
              [("Value", VStr "second")]
              (VDict [("Offer", VStr "second"); ("note", VStr "n")]))
    as (nd & Hy & Hget & _).
  - reflexivity.
  - repeat constructor. discriminate.
  - reflexivity.
  - exists nd. split; [exact Hy | exact Hget].
Defined.

(** ** Key flattener: only the values of entries are examined *)

(** X22.  A dict whose values are all strings is left as it is by the
    flattener, also when it holds [nested_key] and [value_key] itself: the
    pattern is looked for in the values of the entries, so the dict of a
    parent is never collapsed into its own name. *)
Theorem flatten_leaves_flat_dict (nested_key value_key : string)
  (d : list (string * value))
  (Hunique : NoDup (dict_keys d))
  (Hflat : Forall (fun kv => exists s, snd kv = VStr s) d) :
  recursive_parse nested_key value_key (VDict d) = (VDict d, Done (VDict d)).
Proof.
  cbn [recursive_parse]. rewrite parse_items_untouched.
  - cbv beta iota. cbn [outcome_map].
    rewrite (insert_all_fresh _ d []) by exact Hunique. reflexivity.
  - revert Hflat. apply Forall_impl. intros [k v] [s Hs]. cbn [snd] in *.
    subst v. split; reflexivity.
Qed.

Lemma flatten_leaves_flat_dict_witness :
  recursive_parse "Name" "Value"
    (VDict [("Name", VStr "Special Offer"); ("Value", VStr "50% Off")])
  = (VDict [("Name", VStr "Special Offer"); ("Value", VStr "50% Off")],
     Done (VDict [("Name", VStr "Special Offer"); ("Value", VStr "50% Off")])).
Proof.
  apply flatten_leaves_flat_dict.
  - repeat constructor; simpl; intuition discriminate.
  - repeat constructor; eexists; reflexivity.
Defined.

(** ** Key renamer: when nothing is lost *)

Lemma NoDup_map_on {A B : Type} (f : A -> B) (l : list A) :
  (forall x y, In x l -> In y l -> f x = f y -> x = y) ->
  NoDup l -> NoDup (map f l).
Proof.
  intros Hinj Hnd. induction Hnd as [|x r Hnot Hr IH]; simpl; constructor.
  - rewrite in_map_iff. intros (y & Hy & Hin).
    apply Hnot. rewrite (Hinj x y); auto; [now left | now right].
  - apply IH. intros a b Ha Hb. apply Hinj; now right.
Qed.

Lemma keys_in_all_keys (d : list (string * value)) (k : string) :
  In k (dict_keys d) -> In k (all_keys (VDict d)).
Proof.
  unfold dict_keys. rewrite in_map_iff. intros ([k0 x] & <- & Hin).
  simpl. apply in_flat_map. exists (k0, x). split; [exact Hin | now left].
Qed.

Lemma recursive_translate_with_lossless (str_lower : string -> string)
  (translation_map : dict string)
  (casing : option (string -> string)) (v : value) :
  unique_keys v ->
  (forall k1 k2,
      In k1 (all_keys v) -> In k2 (all_keys v) ->
      apply_casing casing (translate_with str_lower translation_map k1)
      = apply_casing casing (translate_with str_lower translation_map k2) ->
      k1 = k2) ->
  leaves (recursive_translate_with str_lower translation_map casing v)
  = leaves v
  /\ all_keys (recursive_translate_with str_lower translation_map casing v)
     = map
         (fun k =>
            apply_casing casing (translate_with str_lower translation_map k))
         (all_keys v).
Proof.
  induction v as [s | d IH | l IH] using value_ind; intros Hu Hinj.
  - split; reflexivity.
  - inversion Hu as [| ? Hnd Hud |]; subst. cbn [recursive_translate_with].
    rewrite dict_of_items_unique.
    + cbn [leaves all_keys] in *. clear Hu Hnd.
      induction d as [|[k x] r IHr]; [split; reflexivity|].
      inversion IH as [|? ? Hx Hr]; subst.
      inversion Hud as [|? ? Hux Hur]; subst.
      cbn [map flat_map fst snd] in *.
      destruct (Hx Hux) as [Hl Hk].
      { intros k1 k2 H1 H2. apply Hinj; right; apply in_or_app; now left. }
      destruct (IHr Hr) as [Hl' Hk']; [|exact Hur|].
      { intros k1 k2 H1 H2. apply Hinj; right; apply in_or_app; now right. }
      rewrite Hl, Hl', Hk, Hk'. split; [reflexivity|].
      cbn [map app]. now rewrite map_app.
    + unfold dict_keys. rewrite map_map. cbn [fst].
      rewrite <- (map_map fst
                    (fun k =>
                       apply_casing casing
                         (translate_with str_lower translation_map k))).
      apply NoDup_map_on; [|exact Hnd].
      intros k1 k2 H1 H2. apply Hinj; now apply keys_in_all_keys.
  - inversion Hu as [| | ? Hul]; subst.
    cbn [recursive_translate_with leaves all_keys] in *.
    clear Hu. induction l as [|x r IHr]; [split; reflexivity|].
    inversion IH as [|? ? Hx Hr]; subst.
    inversion Hul as [|? ? Hux Hur]; subst.
    cbn [map flat_map] in *.
    destruct (Hx Hux) as [Hl Hk].
    { intros k1 k2 H1 H2. apply Hinj; apply in_or_app; now left. }
    destruct (IHr Hr) as [Hl' Hk']; [|exact Hur|].
    { intros k1 k2 H1 H2. apply Hinj; apply in_or_app; now right. }
    rewrite Hl, Hl', Hk, Hk'. split; [reflexivity | now rewrite map_app].
Qed.

(** X23.  Whatever [str.lower] does: when the keys of a value of Python
    dicts get pairwise different new keys, the renamer loses nothing: the
    leaf strings are the same in the same order, and the keys, at every
    depth and in order, are the new keys of the original ones. *)
Theorem rename_keys_lossless (str_lower : string -> string)
  (translation_map : dict string)
  (casing : option (string -> string)) (parent : string) (v : value)
  (Hdicts : unique_keys v)
  (Hdistinct : forall k1 k2,
      In k1 (all_keys v) -> In k2 (all_keys v) ->
      apply_casing casing (translate_with str_lower translation_map k1)
      = apply_casing casing (translate_with str_lower translation_map k2) ->
      k1 = k2) :
  exists v',
    rename_keys_with str_lower translation_map casing [(parent, v)]
    = [(parent, v')]
    /\ leaves v' = leaves v
    /\ all_keys v'
       = map
           (fun k =>
              apply_casing casing (translate_with str_lower translation_map k))
           (all_keys v).
Proof.
  exists (recursive_translate_with str_lower translation_map casing v).
  split; [reflexivity|].
  now apply recursive_translate_with_lossless.
Qed.

Lemma rename_keys_lossless_witness :
  exists v',
    rename_keys_with PyStr.lower Sample.translation_map (Some PyStr.capitalize)
      [("values", VDict [("price", VStr "100"); ("quantity", VStr "5")])]
    = [("values", v')]
    /\ leaves v' = ["100"; "5"]
    /\ all_keys v' = ["Cost"; "Amount"].
Proof.
  apply (rename_keys_lossless PyStr.lower
           Sample.translation_map (Some PyStr.capitalize)
           "values" (VDict [("price", VStr "100"); ("quantity", VStr "5")])).
  - repeat constructor; simpl; intuition discriminate.
  - simpl. intros k1 k2 [<- | [<- | []]] [<- | [<- | []]] H;
      try reflexivity; discriminate H.
Defined.
